(** * Dependency Cache Visualizer: path helpers, API client, panels and
    the cache engine they observe

  A shallow embedding of the dashboard's JavaScript helpers
  ([frontend/src/components/*.jsx], [frontend/src/services/api.js])
  and of the [DataCache]/[DependencyTree] engine described by the
  specification, followed by the properties proved about them. *)

From Stdlib Require Import NArith ZArith String Ascii Permutation Sorted.
From Stdlib Require Import DecimalString.
From stdpp Require Import gmap strings list fin_maps.

Set Warnings "-register-all".

(** ** Strings

  A JavaScript string is its sequence of UTF-16 code units.  The same
  representation serves for the segment names of the cache engine. *)

Abbreviation ustring := (list N).

(** A literal of the source, given by its ASCII spelling. *)
Fixpoint lit (s : string) : ustring :=
  match s with
  | EmptyString => []
  | String a r => N_of_ascii a :: lit r
  end.

Module Js.

(** [""] is the only falsy string. *)
Definition truthy (s : ustring) : bool :=
  match s with [] => false | _ :: _ => true end.

(** [WhiteSpace] and [LineTerminator] code units of ECMAScript, the
    ones [String.prototype.trim] strips. *)
Definition is_white (c : N) : bool :=
  ((9 <=? c) && (c <=? 13) || (c =? 32) || (c =? 160) || (c =? 5760)
   || (8192 <=? c) && (c <=? 8202) || (c =? 8232) || (c =? 8233)
   || (c =? 8239) || (c =? 8287) || (c =? 12288) || (c =? 65279))%N.

Fixpoint trimStart (s : ustring) : ustring :=
  match s with
  | [] => []
  | c :: r => if is_white c then trimStart r else s
  end.

Definition trimEnd (s : ustring) : ustring := rev (trimStart (rev s)).

(** [s.trim()] *)
Definition trim (s : ustring) : ustring := trimEnd (trimStart s).

(** [s.split(sep)] for a separator of one code unit: the pieces
    between the occurrences of [sep]; a string without [sep], the
    empty one included, is a single piece. *)
Fixpoint split (sep : N) (s : ustring) : list ustring :=
  match s with
  | [] => [[]]
  | c :: r =>
      if (c =? sep)%N then [] :: split sep r
      else match split sep r with
           | [] => [[c]]
           | piece :: pieces => (c :: piece) :: pieces
           end
  end.

(** [a.join(sep)] on an array of strings. *)
Fixpoint join (sep : ustring) (a : list ustring) : ustring :=
  match a with
  | [] => []
  | x :: rest =>
      match rest with
      | [] => x
      | _ :: _ => x ++ sep ++ join sep rest
      end
  end.

(** [a === b] on strings. *)
Definition str_eqb (a b : ustring) : bool := bool_decide (a = b).

(** [Object.keys(o)], [Object.values(o)] and [o[k]] on an object given
    by its own properties in enumeration order. *)
Definition Object_keys {A} (o : list (ustring * A)) : list ustring :=
  map fst o.

Definition Object_values {A} (o : list (ustring * A)) : list A :=
  map snd o.

Fixpoint get {A} (o : list (ustring * A)) (k : ustring) : option A :=
  match o with
  | [] => None
  | (k', v) :: rest => if str_eqb k' k then Some v else get rest k
  end.

(** [new Set(keys)] and [Array.from] of it: the keys in the order of
    their first occurrence. *)
Definition Set_add (s : list ustring) (k : ustring) : list ustring :=
  if bool_decide (k ∈ s) then s else s ++ [k].

Definition Set_from (keys : list ustring) : list ustring :=
  fold_left Set_add keys [].

(** [a.sort(compareFn)]: for a consistent [compareFn] the stable sort,
    here by insertion; [x] goes before the first element it does not
    compare greater than. *)
Section Sort.

Context {A : Type} (compareFn : A -> A -> Z).

Fixpoint sort_insert (x : A) (sorted : list A) : list A :=
  match sorted with
  | [] => [x]
  | y :: rest =>
      if (compareFn x y <=? 0)%Z then x :: sorted
      else y :: sort_insert x rest
  end.

Fixpoint Array_sort (a : list A) : list A :=
  match a with
  | [] => []
  | x :: rest => sort_insert x (Array_sort rest)
  end.

(** [a] is not after [b] under the comparator: [compareFn(a, b) <= 0]. *)
Definition not_after (a b : A) : Prop := (compareFn a b <= 0)%Z.

End Sort.

(** A comparison of strings by code units, one admissible behaviour of
    [localeCompare]. *)
Fixpoint code_unit_compare (a b : ustring) : Z :=
  match a, b with
  | [], [] => 0
  | [], _ :: _ => -1
  | _ :: _, [] => 1
  | x :: a', y :: b' =>
      match (x ?= y)%N with
      | Lt => -1
      | Gt => 1
      | Eq => code_unit_compare a' b'
      end
  end.

(** [{ ...o, [k]: v }]: the property [k] of the copy is [v], in place
    where [o] has the key and last where it has not. *)
Fixpoint set {A} (o : list (ustring * A)) (k : ustring) (v : A)
  : list (ustring * A) :=
  match o with
  | [] => [(k, v)]
  | (k', v') :: rest =>
      if str_eqb k' k then (k', v) :: rest else (k', v') :: set rest k v
  end.

(** [a < b] on strings: the comparison by code units. *)
Definition str_lt (a b : ustring) : bool := (code_unit_compare a b <? 0)%Z.

(** The decimal spelling of an integer, as a template literal prints
    it (below 10^21, where the exponent form begins). *)
Definition decimal (n : Z) : ustring :=
  lit (NilZero.string_of_int (Z.to_int n)).

(** The names of the members every plain object inherits from
    [Object.prototype]. *)
Definition Object_prototype_names : list ustring :=
  [lit "constructor"; lit "__defineGetter__"; lit "__defineSetter__";
   lit "hasOwnProperty"; lit "__lookupGetter__"; lit "__lookupSetter__";
   lit "isPrototypeOf"; lit "propertyIsEnumerable"; lit "toString";
   lit "valueOf"; lit "__proto__"; lit "toLocaleString"].

(** What [o[k]] finds on a plain object: an own property, or else the
    member inherited under that name (a function, or the prototype for
    ['__proto__']), or else nothing, [undefined]. *)
Inductive Member (A : Type) :=
| own (v : A)
| inherited (name : ustring)
| missing.
Arguments own {A} v.
Arguments inherited {A} name.
Arguments missing {A}.

Definition member {A} (o : list (ustring * A)) (k : ustring) : Member A :=
  match get o k with
  | Some v => own v
  | None =>
      if bool_decide (k ∈ Object_prototype_names) then inherited k
      else missing
  end.

End Js.

Definition slash : N := 47.

(** ** JavaScript values and completions *)

(** Values that cross the API: JSON data, plus [undefined].  Numbers are
    the integers the counters and timestamps of the interface take. *)
Inductive JsValue :=
| JUndefined
| JNull
| JBool (b : bool)
| JNum (n : Z)
| JStr (s : ustring)
| JArr (items : list JsValue)
| JObj (props : list (ustring * JsValue)).

(** The result of evaluating a call: a value, or a thrown [Error],
    given by its [message]. *)
Inductive Completion (A : Type) :=
| Normal (a : A)
| Thrown (message : ustring).
Arguments Normal {A} a.
Arguments Thrown {A} message.

(** A promise, by the way it settles. *)
Inductive Settled (A : Type) :=
| Fulfilled (a : A)
| Rejected (message : ustring).
Arguments Fulfilled {A} a.
Arguments Rejected {A} message.

(** [await p] *)
Definition await {A} (p : Settled A) : Completion A :=
  match p with
  | Fulfilled a => Normal a
  | Rejected m => Thrown m
  end.

Definition Array_isArray (v : JsValue) : bool :=
  match v with JArr _ => true | _ => false end.

(** Truthiness, as [if (v)] tests it. *)
Definition to_boolean (v : JsValue) : bool :=
  match v with
  | JUndefined | JNull => false
  | JBool b => b
  | JNum n => negb (n =? 0)%Z
  | JStr s => Js.truthy s
  | JArr _ | JObj _ => true
  end.

(** ** [services/api.js] *)

Module api.

(** A request handed to [fetch]: the URL, the [method] option when one
    is given, and the value whose [JSON.stringify] is the body. *)
Record Request := {
  url : ustring;
  method : option ustring;
  body : option JsValue
}.

(** The network, as the client sees it: the requests issued so far. *)
Abbreviation Net := (list Request).

Definition API_BASE_URL : ustring := lit "/api".

Section Client.

(** How the promise of [fetchApi] settles for a request, after the
    requests before it: the parsed JSON of an [ok] response, or the
    error raised for a failed one. *)
Variable settle : Net -> Request -> Settled JsValue.

(** [fetchApi(endpoint, options)] calls [fetch] at once and returns the
    promise. *)
Definition fetchApi (endpoint : ustring) (meth : option ustring)
  (payload : option JsValue) (sent : Net) : Settled JsValue * Net :=
  let r := {| url := API_BASE_URL ++ endpoint; method := meth;
              body := payload |} in
  (settle sent r, sent ++ [r]).

Definition returning {A} (call : Net -> A * Net) (sent : Net)
  : Completion A * Net :=
  let (p, sent') := call sent in (Normal p, sent').

Definition POST : option ustring := Some (lit "POST").

Definition getTree (sent : Net) : Completion (Settled JsValue) * Net :=
  returning (fetchApi (lit "/tree") None None) sent.

Definition getStats (sent : Net) : Completion (Settled JsValue) * Net :=
  returning (fetchApi (lit "/stats") None None) sent.

Definition resetStats (sent : Net) : Completion (Settled JsValue) * Net :=
  returning (fetchApi (lit "/reset-stats") POST None) sent.

Definition getData (path : JsValue) (sent : Net)
  : Completion (Settled JsValue) * Net :=
  if negb (Array_isArray path)
  then (Thrown (lit "Path must be an array of strings."), sent)
  else returning
         (fetchApi (lit "/get-data") POST
            (Some (JObj [(lit "path", path)]))) sent.

Definition addData (path data : JsValue) (sent : Net)
  : Completion (Settled JsValue) * Net :=
  if negb (Array_isArray path)
  then (Thrown (lit "Path must be an array of strings."), sent)
  else returning
         (fetchApi (lit "/add-data") POST
            (Some (JObj [(lit "path", path); (lit "data", data)]))) sent.

Definition invalidatePath (path : JsValue) (sent : Net)
  : Completion (Settled JsValue) * Net :=
  if negb (Array_isArray path)
  then (Thrown (lit "Path must be an array of strings."), sent)
  else returning
         (fetchApi (lit "/invalidate") POST
            (Some (JObj [(lit "path", path)]))) sent.

End Client.

(** *** The response handling of [fetchApi] *)

(** What [fetch] resolves to: [response.ok], [response.status], and the
    result of [response.json()]. *)
Record Response := {
  ok : bool;
  status : Z;
  json : Completion JsValue
}.

Section ResponseHandling.

(** [String(v)] for a value that is not a string, as [new Error(v)]
    converts its message. *)
Variable ToString : JsValue -> ustring.

(** The message of the [TypeError] for reading a property of [null] or
    [undefined]. *)
Variable TypeError_message : ustring.

(** [v.detail] *)
Definition detail_of (v : JsValue) : Completion JsValue :=
  match v with
  | JUndefined | JNull => Thrown TypeError_message
  | JObj props =>
      Normal match Js.get props (lit "detail") with
             | Some d => d
             | None => JUndefined
             end
  | _ => Normal JUndefined
  end.

(** The [message] of [new Error(v)]. *)
Definition Error_message (v : JsValue) : ustring :=
  match v with
  | JStr s => s
  | _ => ToString v
  end.

(** The [try] block of [fetchApi] after [fetch] has settled, with the
    [catch] that rethrows. *)
Definition handle_response (fetched : Settled Response) : Settled JsValue :=
  match fetched with
  | Rejected m => Rejected m
  | Fulfilled response =>
      if negb (ok response) then
        let errorData :=
          match json response with
          | Normal d => d
          | Thrown _ =>
              JObj [(lit "detail",
                     JStr (lit "HTTP error! status: "
                           ++ Js.decimal (status response)))]
          end in
        match detail_of errorData with
        | Thrown m => Rejected m
        | Normal detail =>
            Rejected
              (Error_message
                 (if to_boolean detail then detail
                  else JStr (lit "Request failed with status "
                             ++ Js.decimal (status response))))
        end
      else if (status response =? 204)%Z then Fulfilled JNull
      else match json response with
           | Normal d => Fulfilled d
           | Thrown m => Rejected m
           end
  end.

(** The way the promises of [fetchApi] settle against a server that
    answers a request, after the requests before it, with [server]. *)
Definition settle_by (server : Net -> Request -> Settled Response)
  : Net -> Request -> Settled JsValue :=
  fun sent r => handle_response (server sent r).

End ResponseHandling.

End api.

(** ** [TreeView.jsx] *)

Module TreeView.

(** A node of the tree snapshot, with the fields the tree view reads;
    [children] is the object keyed by identifier, in its enumeration
    order. *)
Inductive SnapNode := mkSnapNode {
  identifier : ustring;
  has_data : bool;
  children : list (ustring * SnapNode)
}.

(** [names] are the identifiers along a chain of children from [node]
    down to [target], both ends included. *)
Inductive descends : SnapNode -> list ustring -> SnapNode -> Prop :=
| descends_here (node : SnapNode) :
    descends node [identifier node] node
| descends_child (node child : SnapNode) (names : list ustring)
    (target : SnapNode) :
    child ∈ Js.Object_values (children node) ->
    descends child names target ->
    descends node (identifier node :: names) target.

Section View.

(** [String.prototype.localeCompare] of the host. *)
Variable localeCompare : ustring -> ustring -> Z.

(** [(a, b) => a.identifier.localeCompare(b.identifier)] *)
Definition byIdentifier (a b : SnapNode) : Z :=
  localeCompare (identifier a) (identifier b).

(** The children a [TreeNode] maps to child components, in order. *)
Definition TreeNode_children (node : SnapNode) : list SnapNode :=
  Js.Array_sort byIdentifier (Js.Object_values (children node)).

(** [rootChildren] of [TreeView]; [None] is the placeholder shown for a
    missing tree. *)
Definition rootChildren (tree : option SnapNode) : option (list SnapNode) :=
  match tree with
  | None => None
  | Some root =>
      Some (Js.Array_sort byIdentifier (Js.Object_values (children root)))
  end.

(** *** The rows of the tree *)

(** What a mounted [TreeNode] shows in its own row, with the arguments
    its click and toggle callbacks pass on. *)
Record Row := {
  row_node : SnapNode;
  level : nat;
  currentPath : list ustring;
  currentPathStr : ustring;
  isExpanded : bool;
  hasChildren : bool;
  isSelected : bool
}.

(** [expandedNodes[currentPathStr] || false] *)
Definition expanded_in (expandedNodes : list (ustring * bool))
  (pathStr : ustring) : bool :=
  match Js.get expandedNodes pathStr with
  | Some b => b
  | None => false
  end.

(** [selectedNodePathStr === currentPathStr], the former [null] or a
    string. *)
Definition selected_in (selectedNodePathStr : option ustring)
  (pathStr : ustring) : bool :=
  match selectedNodePathStr with
  | Some s => Js.str_eqb s pathStr
  | None => false
  end.

Definition own_row (expandedNodes : list (ustring * bool))
  (selectedNodePathStr : option ustring) (level : nat)
  (path : list ustring) (node : SnapNode) : Row :=
  let currentPath := path ++ [identifier node] in
  let currentPathStr := Js.join [slash] currentPath in
  {| row_node := node; level := level; currentPath := currentPath;
     currentPathStr := currentPathStr;
     isExpanded := expanded_in expandedNodes currentPathStr;
     hasChildren :=
       match Js.Object_keys (children node) with
       | [] => false
       | _ :: _ => true
       end;
     isSelected := selected_in selectedNodePathStr currentPathStr |}.

(** The rows a [TreeNode] mounts, top to bottom: none for a node
    without identifier; else its own row and, under an expanded node
    with children ([Collapse] with [unmountOnExit] mounts them only
    then), the rows of the children, sorted by identifier.  Each child
    is rendered where the mapping has it and the renderings are put in
    the order of the sort, which compares the children only; the
    equation [TreeNode_rows_eq] below gives the rows in the source's
    order of evaluation, sort first. *)
Fixpoint TreeNode (expandedNodes : list (ustring * bool))
  (selectedNodePathStr : option ustring) (level : nat)
  (path : list ustring) (node : SnapNode) {struct node} : list Row :=
  match node with
  | mkSnapNode ident _ kids =>
      if negb (Js.truthy ident) then []
      else
        let own :=
          own_row expandedNodes selectedNodePathStr level path node in
        own ::
          (if hasChildren own && isExpanded own then
             concat
               (map snd
                  (Js.Array_sort
                     (fun a b => byIdentifier (fst a) (fst b))
                     ((fix each (l : list (ustring * SnapNode))
                         : list (SnapNode * list Row) :=
                         match l with
                         | [] => []
                         | (_, childNode) :: rest =>
                             (childNode,
                              TreeNode expandedNodes selectedNodePathStr
                                (S level) (currentPath own) childNode)
                             :: each rest
                         end) kids)))
           else [])
  end.

(** What the [TreeView] component shows. *)
Inductive View :=
| LoadingOrEmpty
| CacheIsEmpty
| Rows (rows : list Row).

(** [selectedNodePath ? selectedNodePath.join('/') : null] *)
Definition selectedNodePathStr_of (selectedNodePath : option (list ustring))
  : option ustring :=
  match selectedNodePath with
  | Some p => Some (Js.join [slash] p)
  | None => None
  end.

Definition TreeView (tree : option SnapNode)
  (expandedNodes : list (ustring * bool))
  (selectedNodePath : option (list ustring)) : View :=
  match rootChildren tree with
  | None => LoadingOrEmpty
  | Some [] => CacheIsEmpty
  | Some (first :: others) =>
      Rows (flat_map
              (TreeNode expandedNodes
                 (selectedNodePathStr_of selectedNodePath) 0 [lit "root"])
              (first :: others))
  end.

End View.

End TreeView.

(** ** [DependencyCacheVisualizer.jsx]: the path helpers *)

Module DependencyCacheVisualizer.

(** [pathStr.split('/').filter(p => p && p.trim() !== '')] *)
Definition keep_segment (p : ustring) : bool :=
  Js.truthy p && negb (Js.str_eqb (Js.trim p) []).

Definition parsePath (pathStr : ustring) : list ustring :=
  List.filter keep_segment (Js.split slash pathStr).

(** [pathArray] is an array of strings, or [null]/[undefined]
    ([None]). *)
Definition displayPath (pathArray : option (list ustring))
  : option (list ustring) :=
  match pathArray with
  | Some (first :: rest) =>
      if Js.str_eqb first (lit "root") then Some rest else pathArray
  | _ => pathArray
  end.

Definition formatPath (pathArray : option (list ustring)) : ustring :=
  match displayPath pathArray with
  | Some a => Js.join [slash] a
  | None => []
  end.

(** *** The operation handlers *)

Record Loading := {
  loading_tree : bool;
  loading_stats : bool;
  loading_operation : bool
}.

(** What [setLastOperationResult] receives. *)
Record OperationResult := {
  r_type : ustring;
  r_success : bool;
  r_path : ustring;
  r_response : option JsValue;
  r_error : option ustring
}.

Inductive Toast :=
| toast_success (message : ustring)
| toast_error (message : ustring).

(** The component state the data fetch and the operations read and
    write, with the toasts shown so far. *)
Record Ui := {
  tree : option JsValue;
  stats : option JsValue;
  loading : Loading;
  error : option ustring;
  opPathInput : ustring;
  opDataInput : ustring;
  lastOperationResult : option OperationResult;
  autoRefreshInterval : Z;
  refreshIntervalId : option Z;
  toasts : list Toast
}.

Definition setTree (v : option JsValue) (u : Ui) : Ui :=
  {| tree := v; stats := stats u; loading := loading u; error := error u;
     opPathInput := opPathInput u; opDataInput := opDataInput u;
     lastOperationResult := lastOperationResult u;
     autoRefreshInterval := autoRefreshInterval u;
     refreshIntervalId := refreshIntervalId u; toasts := toasts u |}.

Definition setStats (v : option JsValue) (u : Ui) : Ui :=
  {| tree := tree u; stats := v; loading := loading u; error := error u;
     opPathInput := opPathInput u; opDataInput := opDataInput u;
     lastOperationResult := lastOperationResult u;
     autoRefreshInterval := autoRefreshInterval u;
     refreshIntervalId := refreshIntervalId u; toasts := toasts u |}.

Definition setLoading (f : Loading -> Loading) (u : Ui) : Ui :=
  {| tree := tree u; stats := stats u; loading := f (loading u);
     error := error u;
     opPathInput := opPathInput u; opDataInput := opDataInput u;
     lastOperationResult := lastOperationResult u;
     autoRefreshInterval := autoRefreshInterval u;
     refreshIntervalId := refreshIntervalId u; toasts := toasts u |}.

Definition setError (e : option ustring) (u : Ui) : Ui :=
  {| tree := tree u; stats := stats u; loading := loading u; error := e;
     opPathInput := opPathInput u; opDataInput := opDataInput u;
     lastOperationResult := lastOperationResult u;
     autoRefreshInterval := autoRefreshInterval u;
     refreshIntervalId := refreshIntervalId u; toasts := toasts u |}.

Definition setOpDataInput (s : ustring) (u : Ui) : Ui :=
  {| tree := tree u; stats := stats u; loading := loading u;
     error := error u;
     opPathInput := opPathInput u; opDataInput := s;
     lastOperationResult := lastOperationResult u;
     autoRefreshInterval := autoRefreshInterval u;
     refreshIntervalId := refreshIntervalId u; toasts := toasts u |}.

Definition setLastOperationResult (r : option OperationResult) (u : Ui)
  : Ui :=
  {| tree := tree u; stats := stats u; loading := loading u;
     error := error u;
     opPathInput := opPathInput u; opDataInput := opDataInput u;
     lastOperationResult := r;
     autoRefreshInterval := autoRefreshInterval u;
     refreshIntervalId := refreshIntervalId u; toasts := toasts u |}.

(** [clearInterval(refreshIntervalId.current)], the reference reset and
    [setAutoRefreshInterval(0)], when an interval is running. *)
Definition stopAutoRefresh (u : Ui) : Ui :=
  match refreshIntervalId u with
  | None => u
  | Some _ =>
      {| tree := tree u; stats := stats u; loading := loading u;
         error := error u;
         opPathInput := opPathInput u; opDataInput := opDataInput u;
         lastOperationResult := lastOperationResult u;
         autoRefreshInterval := 0;
         refreshIntervalId := None; toasts := toasts u |}
  end.

Definition toast (t : Toast) (u : Ui) : Ui :=
  {| tree := tree u; stats := stats u; loading := loading u;
     error := error u;
     opPathInput := opPathInput u; opDataInput := opDataInput u;
     lastOperationResult := lastOperationResult u;
     autoRefreshInterval := autoRefreshInterval u;
     refreshIntervalId := refreshIntervalId u;
     toasts := toasts u ++ [t] |}.

(** The functions of [api] that [executeOperation] is given. *)
Inductive ApiFunction :=
| api_getData
| api_addData
| api_invalidatePath
| api_resetStats.

(** [operationFn === api.addData] *)
Definition is_addData (f : ApiFunction) : bool :=
  match f with api_addData => true | _ => false end.

Section Handlers.

Variable settle : api.Net -> api.Request -> Settled JsValue.

(** [JSON.parse], [None] where it throws. *)
Variable JSON_parse : ustring -> option JsValue.

(** The race of the two requests of a refresh issued after [sent]:
    whether, when both reject, the one for the statistics does so
    first in time. *)
Variable statsFirst : api.Net -> bool.

(** [operationFn(...args)]; a parameter without argument is
    [undefined]. *)
Definition call (f : ApiFunction) (args : list JsValue) (sent : api.Net)
  : Completion (Settled JsValue) * api.Net :=
  match f with
  | api_getData => api.getData settle (nth 0 args JUndefined) sent
  | api_addData =>
      api.addData settle (nth 0 args JUndefined) (nth 1 args JUndefined)
        sent
  | api_invalidatePath =>
      api.invalidatePath settle (nth 0 args JUndefined) sent
  | api_resetStats => api.resetStats settle sent
  end.

(** [await Promise.all([api.getTree(), api.getStats()])]: both calls are
    made, then the results awaited; [Promise.all] rejects with the
    rejection that comes first in time. *)
Definition fetchBoth (sent : api.Net)
  : Completion (JsValue * JsValue) * api.Net :=
  match api.getTree settle sent with
  | (Thrown m, sent1) => (Thrown m, sent1)
  | (Normal pTree, sent1) =>
      match api.getStats settle sent1 with
      | (Thrown m, sent2) => (Thrown m, sent2)
      | (Normal pStats, sent2) =>
          match await pTree, await pStats with
          | Normal treeData, Normal statsData =>
              (Normal (treeData, statsData), sent2)
          | Thrown m, Normal _ => (Thrown m, sent2)
          | Normal _, Thrown m => (Thrown m, sent2)
          | Thrown mTree, Thrown mStats =>
              (Thrown (if statsFirst sent then mStats else mTree), sent2)
          end
      end
  end.

Definition fetchData (isInitial : bool) (w : Ui * api.Net)
  : Ui * api.Net :=
  let (u, sent) := w in
  let u :=
    if isInitial
    then setLoading (fun _ => {| loading_tree := true;
                                 loading_stats := true;
                                 loading_operation := false |}) u
    else setLoading (fun prev => {| loading_tree := true;
                                    loading_stats := true;
                                    loading_operation :=
                                      loading_operation prev |}) u in
  let u := setError None u in
  let (fetched, sent) := fetchBoth sent in
  let u :=
    match fetched with
    | Normal (treeData, statsData) =>
        setStats (Some statsData) (setTree (Some treeData) u)
    | Thrown message =>
        let errorMsg := lit "Failed to fetch data: " ++ message in
        stopAutoRefresh (toast (toast_error errorMsg)
                           (setError (Some errorMsg) u))
    end in
  (setLoading (fun prev => {| loading_tree := false;
                              loading_stats := false;
                              loading_operation :=
                                loading_operation prev |}) u, sent).

(** The [try] block of [executeOperation]. *)
Definition executeOperation_try (operationFn : ApiFunction)
  (successMessage opType : ustring) (requiresPath clearDataInput : bool)
  (currentPathStr : ustring) (w : Ui * api.Net)
  : Completion JsValue * (Ui * api.Net) :=
  let (u, sent) := w in
  let path := parsePath (opPathInput u) in
  if requiresPath && (length path =? 0)
  then (Thrown (lit "Path cannot be empty for this operation."), w)
  else
    let (called, sent) :=
      if is_addData operationFn then
        let dataValue :=
          match JSON_parse (opDataInput u) with
          | Some v => v
          | None => JStr (opDataInput u)
          end in
        call operationFn [JArr (JStr <$> path); dataValue] sent
      else if requiresPath then
        call operationFn [JArr (JStr <$> path)] sent
      else call operationFn [] sent in
    match called with
    | Thrown m => (Thrown m, (u, sent))
    | Normal promise =>
        match await promise with
        | Thrown m => (Thrown m, (u, sent))
        | Normal response =>
            let u := toast (toast_success successMessage) u in
            let u :=
              setLastOperationResult
                (Some {| r_type := opType; r_success := true;
                         r_path := currentPathStr;
                         r_response := Some response;
                         r_error := None |}) u in
            let u := if clearDataInput then setOpDataInput [] u else u in
            (Normal response, fetchData false (u, sent))
        end
    end.

(** [executeOperation]: the state it leaves and the [resultData] it
    returns, [null] after a failure. *)
Definition executeOperation (operationFn : ApiFunction)
  (successMessage opType : ustring) (requiresPath clearDataInput : bool)
  (w : Ui * api.Net) : JsValue * (Ui * api.Net) :=
  let (u, sent) := w in
  let u := setLoading (fun prev => {| loading_tree := loading_tree prev;
                                      loading_stats := loading_stats prev;
                                      loading_operation := true |}) u in
  let u := setError None u in
  let u := setLastOperationResult None u in
  let currentPathStr := opPathInput u in
  let '(outcome, (u, sent)) :=
    executeOperation_try operationFn successMessage opType requiresPath
      clearDataInput currentPathStr (u, sent) in
  let '(resultData, u) :=
    match outcome with
    | Normal response => (response, u)
    | Thrown message =>
        let errorMsg := lit "Operation failed: " ++ message in
        let u := setError (Some errorMsg) u in
        let u := toast (toast_error errorMsg) u in
        (JNull,
         setLastOperationResult
           (Some {| r_type := opType; r_success := false;
                    r_path := currentPathStr; r_response := None;
                    r_error := Some message |}) u)
    end in
  (resultData,
   (setLoading (fun prev => {| loading_tree := loading_tree prev;
                               loading_stats := loading_stats prev;
                               loading_operation := false |}) u, sent)).

Definition handleGetData (w : Ui * api.Net) : Ui * api.Net :=
  let '(result, (u, sent)) :=
    executeOperation api_getData (lit "Data retrieved") (lit "GET_DATA")
      true false w in
  if to_boolean result
  then (setLastOperationResult
          (Some {| r_type := lit "GET_DATA"; r_success := true;
                   r_path := opPathInput (fst w);
                   r_response := Some result; r_error := None |}) u,
        sent)
  else (u, sent).

Definition handleAddData (w : Ui * api.Net) : Ui * api.Net :=
  snd (executeOperation api_addData (lit "Data added/updated")
         (lit "ADD_DATA") true true w).

Definition handleInvalidate (w : Ui * api.Net) : Ui * api.Net :=
  snd (executeOperation api_invalidatePath (lit "Path invalidated")
         (lit "INVALIDATE") true false w).

Definition handleResetStats (w : Ui * api.Net) : Ui * api.Net :=
  snd (executeOperation api_resetStats (lit "Stats reset")
         (lit "RESET_STATS") false false w).

End Handlers.

(** *** Tree interaction *)

(** The component state behind the tree: [expandedNodes],
    [selectedNode] and [selectedPath]. *)
Record TreeState := {
  expandedNodes : list (ustring * bool);
  selectedNode : option TreeView.SnapNode;
  selectedPath : list ustring
}.


Definition setOpPathInput (s : ustring) (u : Ui) : Ui :=
  {| tree := tree u; stats := stats u; loading := loading u;
     error := error u;
     opPathInput := s; opDataInput := opDataInput u;
     lastOperationResult := lastOperationResult u;
     autoRefreshInterval := autoRefreshInterval u;
     refreshIntervalId := refreshIntervalId u; toasts := toasts u |}.

(** [setExpandedNodes(prev => ({ ...prev, [nodeId]: !prev[nodeId] }))];
    a missing entry is [undefined], whose negation is [true].  The node
    ids are the path strings of rows, 'root/...'. *)
Definition handleToggleNode (nodeId : ustring) (t : TreeState) : TreeState :=
  {| expandedNodes :=
       Js.set (expandedNodes t) nodeId
         (negb match Js.get (expandedNodes t) nodeId with
               | Some b => b
               | None => false
               end);
     selectedNode := selectedNode t;
     selectedPath := selectedPath t |}.

Definition handleNodeClick (node : TreeView.SnapNode) (path : list ustring)
  (s : TreeState * Ui) : TreeState * Ui :=
  let (t, u) := s in
  ({| expandedNodes := expandedNodes t; selectedNode := Some node;
      selectedPath := path |},
   setOpPathInput (formatPath (Some path)) u).

(** The click on a row and on its toggle button: [handleClick] and
    [handleToggle] of [TreeNode] with the callbacks of the component. *)
Definition clickRow (row : TreeView.Row) (s : TreeState * Ui)
  : TreeState * Ui :=
  handleNodeClick (TreeView.row_node row) (TreeView.currentPath row) s.

Definition toggleRow (row : TreeView.Row) (t : TreeState) : TreeState :=
  if TreeView.hasChildren row
  then handleToggleNode (TreeView.currentPathStr row) t
  else t.

(** The tree as the component renders it from its state. *)
Definition renderTree (localeCompare : ustring -> ustring -> Z)
  (snapshot : option TreeView.SnapNode) (t : TreeState) : TreeView.View :=
  TreeView.TreeView localeCompare snapshot (expandedNodes t)
    (Some (selectedPath t)).

End DependencyCacheVisualizer.

(** ** [NodeDetailsPanel.jsx] *)

Module NodeDetailsPanel.

Definition formatPath (pathArray : option (list ustring)) : ustring :=
  match DependencyCacheVisualizer.displayPath pathArray with
  | Some a => Js.join [slash] a
  | None => lit "N/A"
  end.

End NodeDetailsPanel.

(** ** [StatsPanel.jsx] *)

Module StatsPanel.

(** A per-path mapping of the stats object: path string to count. *)
Abbreviation Counts := (list (ustring * Z)).

(** A per-path field of the stats object: missing, [null], or a
    mapping. *)
Inductive Field :=
| field_missing
| field_null
| field_mapping (m : Counts).

(** The stats object; a global counter that is missing is [None]. *)
Record Stats := {
  gets : option Z;
  hits : option Z;
  misses : option Z;
  adds : option Z;
  invalidations : option Z;
  paths_checked : Field;
  paths_hit : Field;
  paths_missed : Field;
  paths_added : Field;
  paths_invalidated : Field
}.

(** A destructured per-path field: the default [= {}] for a missing
    field, and for every field of a missing stats object
    ([stats || {}]); [None] for [null], which the default does not
    replace. *)
Definition mapping (field : Stats -> Field) (stats : option Stats)
  : option Counts :=
  match stats with
  | Some s =>
      match field s with
      | field_missing => Some []
      | field_null => None
      | field_mapping m => Some m
      end
  | None => Some []
  end.

(** The value of a cell: a number, or the member inherited under a
    name, which is an object and not a number. *)
Inductive Cell :=
| count (n : Z)
| member_value (name : ustring).

Record Row := {
  path : ustring;
  checked : Cell;
  hit : Cell;
  missed : Cell;
  added : Cell;
  invalidated : Cell
}.

(** [m[pathKey] || 0]: an inherited member is truthy and is what the
    cell gets. *)
Definition count_or_0 (m : Counts) (pathKey : ustring) : Cell :=
  match Js.member m pathKey with
  | Js.own c => count (if (c =? 0)%Z then 0%Z else c)
  | Js.inherited name => member_value name
  | Js.missing => count 0%Z
  end.

(** [Array.from(allPaths)] for the five mappings. *)
Definition allPaths (checked hit missed added invalidated : Counts)
  : list ustring :=
  Js.Set_from
    (Js.Object_keys checked ++ Js.Object_keys hit ++ Js.Object_keys missed
     ++ Js.Object_keys added ++ Js.Object_keys invalidated).

Definition tableRows (checked hit missed added invalidated : Counts)
  : list Row :=
  map (fun pathKey =>
         {| path := pathKey;
            checked := count_or_0 checked pathKey;
            hit := count_or_0 hit pathKey;
            missed := count_or_0 missed pathKey;
            added := count_or_0 added pathKey;
            invalidated := count_or_0 invalidated pathKey |})
      (allPaths checked hit missed added invalidated).

(** [pathTableData]; [None] where [Object.keys] is given [null] and
    throws a [TypeError], so that the component renders nothing. *)
Definition pathTableData (stats : option Stats) : option (list Row) :=
  match mapping paths_checked stats, mapping paths_hit stats,
        mapping paths_missed stats, mapping paths_added stats,
        mapping paths_invalidated stats with
  | Some checked, Some hit, Some missed, Some added, Some invalidated =>
      Some (tableRows checked hit missed added invalidated)
  | _, _, _, _, _ => None
  end.

(** *** Sorting the table *)

(** The column ids of [tableColumns], the values [orderBy] takes. *)
Inductive Column :=
| col_path
| col_checked
| col_hit
| col_missed
| col_added
| col_invalidated.

Inductive Order := asc | desc.

Section Comparators.

(** The string an inherited member converts to in a comparison: the
    source text the host gives a built-in function, '[object Object]'
    for the prototype. *)
Variable member_text : ustring -> ustring.

(** [x < y] on two cells: numbers compare as numbers, two inherited
    members as the strings they convert to, and a member against a
    number, being [NaN] as a number, is never smaller or greater. *)
Definition cell_lt (x y : Cell) : bool :=
  match x, y with
  | count n, count m => (n <? m)%Z
  | member_value p, member_value q =>
      Js.str_lt (member_text p) (member_text q)
  | count _, member_value _ | member_value _, count _ => false
  end.

(** [a[orderBy] < b[orderBy]]: strings for the path, cells for the
    counts. *)
Definition field_lt (orderBy : Column) (a b : Row) : bool :=
  match orderBy with
  | col_path => Js.str_lt (path a) (path b)
  | col_checked => cell_lt (checked a) (checked b)
  | col_hit => cell_lt (hit a) (hit b)
  | col_missed => cell_lt (missed a) (missed b)
  | col_added => cell_lt (added a) (added b)
  | col_invalidated => cell_lt (invalidated a) (invalidated b)
  end.

Definition descendingComparator (a b : Row) (orderBy : Column) : Z :=
  if field_lt orderBy b a then (-1)%Z
  else if field_lt orderBy a b then 1%Z
  else 0%Z.

Definition getComparator (order : Order) (orderBy : Column)
  : Row -> Row -> Z :=
  match order with
  | desc => fun a b => descendingComparator a b orderBy
  | asc => fun a b => (- descendingComparator a b orderBy)%Z
  end.

(** [[...pathTableData].sort(getComparator(order, orderBy))]; the sort
    is the one of [Js.Array_sort], which an engine is held to where the
    comparator is consistent on the rows. *)
Definition sortedTableData (stats : option Stats) (order : Order)
  (orderBy : Column) : option (list Row) :=
  match pathTableData stats with
  | Some rows => Some (Js.Array_sort (getComparator order orderBy) rows)
  | None => None
  end.

End Comparators.

(** The sort state, [order] and [orderBy], as first mounted and after
    [handleRequestSort]. *)
Definition initialSort : Order * Column := (desc, col_checked).

Definition Column_eqb (a b : Column) : bool :=
  match a, b with
  | col_path, col_path | col_checked, col_checked | col_hit, col_hit
  | col_missed, col_missed | col_added, col_added
  | col_invalidated, col_invalidated => true
  | _, _ => false
  end.

Definition handleRequestSort (property : Column) (s : Order * Column)
  : Order * Column :=
  let (order, orderBy) := s in
  let isAsc :=
    Column_eqb orderBy property
    && match order with asc => true | desc => false end in
  (if isAsc then desc else asc, property).

(** The row 'No path data recorded yet.' is rendered: the component
    has not returned 'Loading stats...' for a missing stats object
    ([if (!stats)]), the table data were computed, and
    [pathTableData.length === 0]. *)
Definition showsNoPathData (stats : option Stats) : bool :=
  match stats, pathTableData stats with
  | Some _, Some rows => length rows =? 0
  | _, _ => false
  end.

End StatsPanel.

(** ** [OperationsPanel.jsx] *)

Module OperationsPanel.

(** [disabled={loading || !opPathInput}] of the three buttons. *)
Definition buttonsDisabled (loading : bool) (opPathInput : ustring) : bool :=
  loading || negb (Js.truthy opPathInput).

End OperationsPanel.

(** A path string of the spec as written in the specification's words:
  the ['/']-separated pieces with the empty and the white-space-only
  ones left out. *)
Definition blank (p : ustring) : bool := forallb Js.is_white p.

Definition spec_segments (s : ustring) : list ustring :=
  List.filter (fun p => negb (blank p)) (Js.split slash s).

(** ** The cache engine: [DependencyTree] and [DataCache]

    The Python package [dependency_cache_visualizer.core] is not among
    the sources; its two classes are modelled from sections 3, 4 and 7
    of the specification. *)

Module core.

(** Modelled from the spec: the [Path] of section 3: the segment names
    from the root; the empty path is the root. *)
Abbreviation Path := (list ustring).

Section Engine.

(** Modelled from the spec: payloads, fingerprints and times are
    opaque to the engine; [hash] is the deterministic content
    fingerprint (section 3). *)
Context {V H T : Type} (hash : V -> H).

(** Modelled from the spec: the [value], [data_hash] and [timestamp]
    attributes of a [Node] (section 3), which are present together,
    exactly when [has_data]. *)
Record Stored := {
  value : V;
  data_hash : H;
  timestamp : T
}.

(** Modelled from the spec: the [Node] of section 3, missing with the
    engine's source: its [identifier], its data when it has some, and
    the mapping from child identifier to child. *)
Inductive Node := mkNode {
  identifier : ustring;
  stored : option Stored;
  children : gmap ustring Node
}.

(** Modelled from the spec: [has_data] of a [Node] (section 3). *)
Definition has_data (n : Node) : bool :=
  match stored n with Some _ => true | None => false end.

(** Modelled from the spec: the [Root] of section 3 at construction,
    identifier "root", no data, no children. *)
Definition empty_root : Node :=
  {| identifier := lit "root"; stored := None; children := ∅ |}.

(** Modelled from the spec: an intermediate node as [ensure_path]
    creates it, with [has_data = false] (section 4.1). *)
Definition fresh (name : ustring) : Node :=
  {| identifier := name; stored := None; children := ∅ |}.

(** Modelled from the spec: [DependencyTree.find] (section 4.1): walks
    from the root following existing children only; absent if a segment
    is missing. *)
Fixpoint find (path : Path) (n : Node) : option Node :=
  match path with
  | [] => Some n
  | s :: rest =>
      match children n !! s with
      | Some child => find rest child
      | None => None
      end
  end.

(** Modelled from the spec: [DependencyTree.ensure_path] (section 4.1):
    walks from the root, creating the missing nodes; the tree after the
    walk (the terminal node is the one [find] then returns). *)
Fixpoint ensure_path (path : Path) (n : Node) : Node :=
  match path with
  | [] => n
  | s :: rest =>
      let child :=
        match children n !! s with
        | Some c => c
        | None => fresh s
        end in
      {| identifier := identifier n; stored := stored n;
         children := <[s := ensure_path rest child]> (children n) |}
  end.

(** Modelled from the spec: the write of [DataCache.add] to the node
    [ensure_path] returned (section 4.2): the node at [path] is changed
    in place, the tree around it is the same. *)
Fixpoint update_at (path : Path) (f : Node -> Node) (n : Node) : Node :=
  match path with
  | [] => f n
  | s :: rest =>
      match children n !! s with
      | Some child =>
          {| identifier := identifier n; stored := stored n;
             children := <[s := update_at rest f child]> (children n) |}
      | None => n
      end
  end.

(** Modelled from the spec: [DependencyTree.collapse] (section 4.1):
    [None] where no node is at [path] (the call returns false and
    changes nothing), otherwise the tree with that node and its subtree
    detached from its parent.  The root has no parent and is never
    detached. *)
Fixpoint collapse (path : Path) (n : Node) : option Node :=
  match path with
  | [] => None
  | s :: rest =>
      match children n !! s with
      | None => None
      | Some child =>
          match rest with
          | [] =>
              Some {| identifier := identifier n; stored := stored n;
                      children := delete s (children n) |}
          | _ :: _ =>
              match collapse rest child with
              | None => None
              | Some child' =>
                  Some {| identifier := identifier n; stored := stored n;
                          children := <[s := child']> (children n) |}
              end
          end
      end
  end.

(** Modelled from the spec: the statistics ledger of section 3: five
    global counters and five mappings from path string to count. *)
Record Ledger := {
  gets : nat;
  hits : nat;
  misses : nat;
  adds : nat;
  invalidations : nat;
  paths_checked : gmap ustring nat;
  paths_hit : gmap ustring nat;
  paths_missed : gmap ustring nat;
  paths_added : gmap ustring nat;
  paths_invalidated : gmap ustring nat
}.

(** Modelled from the spec: the ledger at construction and after
    [reset_stats] (sections 3 and 4.2). *)
Definition empty_ledger : Ledger :=
  {| gets := 0; hits := 0; misses := 0; adds := 0; invalidations := 0;
     paths_checked := ∅; paths_hit := ∅; paths_missed := ∅;
     paths_added := ∅; paths_invalidated := ∅ |}.

(** Modelled from the spec: the path string of a path, segments
    separated by ['/'] (section 6). *)
Definition path_string (path : Path) : ustring := Js.join [slash] path.

(** Modelled from the spec: the increment of a per-path count; an entry
    appears the first time the path takes part (section 3). *)
Definition bump (key : ustring) (m : gmap ustring nat) : gmap ustring nat :=
  <[key := S (default 0 (m !! key))]> m.

(** Modelled from the spec: the [DataCache] of section 2: a tree and a
    ledger. *)
Record DataCache := {
  tree : Node;
  ledger : Ledger
}.

(** Modelled from the spec: a cache at construction (section 3,
    lifecycle). *)
Definition new_cache : DataCache :=
  {| tree := empty_root; ledger := empty_ledger |}.

(** Modelled from the spec: the error taxonomy of section 7; absence of
    data and invalidation of an absent path are results, not errors. *)
Inductive Outcome (A : Type) :=
| Ok (a : A)
| InvalidPath.
Arguments Ok {A} a.
Arguments InvalidPath {A}.

(** Modelled from the spec: the result of [DataCache.get],
    [{exists, value?, hash?, timestamp?}] (section 4.2). *)
Record GetResult := {
  exists_ : bool;
  got_value : option V;
  got_hash : option H;
  got_timestamp : option T
}.

(** Modelled from the spec: the "does not exist" result of [get]
    (section 4.2). *)
Definition does_not_exist : GetResult :=
  {| exists_ := false; got_value := None; got_hash := None;
     got_timestamp := None |}.

(** Modelled from the spec: the data [get] finds at a path: that of an
    existing node with [has_data] (section 4.2). *)
Definition lookup_data (path : Path) (root : Node) : option Stored :=
  match find path root with
  | Some n => stored n
  | None => None
  end.

(** Modelled from the spec: [DataCache.get] (section 4.2). *)
Definition get (path : Path) (c : DataCache) : Outcome GetResult * DataCache :=
  match path with
  | [] => (InvalidPath, c)
  | _ :: _ =>
      let l := ledger c in
      let key := path_string path in
      match lookup_data path (tree c) with
      | Some d =>
          (Ok {| exists_ := true; got_value := Some (value d);
                 got_hash := Some (data_hash d);
                 got_timestamp := Some (timestamp d) |},
           {| tree := tree c;
              ledger :=
                {| gets := S (gets l); hits := S (hits l);
                   misses := misses l; adds := adds l;
                   invalidations := invalidations l;
                   paths_checked := bump key (paths_checked l);
                   paths_hit := bump key (paths_hit l);
                   paths_missed := paths_missed l;
                   paths_added := paths_added l;
                   paths_invalidated := paths_invalidated l |} |})
      | None =>
          (Ok does_not_exist,
           {| tree := tree c;
              ledger :=
                {| gets := S (gets l); hits := hits l;
                   misses := S (misses l); adds := adds l;
                   invalidations := invalidations l;
                   paths_checked := bump key (paths_checked l);
                   paths_hit := paths_hit l;
                   paths_missed := bump key (paths_missed l);
                   paths_added := paths_added l;
                   paths_invalidated := paths_invalidated l |} |})
      end
  end.

(** Modelled from the spec: the node write of [DataCache.add]: data
    present, hash recomputed over the value, timestamp the current time
    (section 4.2). *)
Definition write (v : V) (now : T) (n : Node) : Node :=
  {| identifier := identifier n;
     stored := Some {| value := v; data_hash := hash v; timestamp := now |};
     children := children n |}.

(** Modelled from the spec: [DataCache.add] (section 4.2); [now] is the
    current time. *)
Definition add (path : Path) (v : V) (now : T) (c : DataCache)
  : Outcome unit * DataCache :=
  match path with
  | [] => (InvalidPath, c)
  | _ :: _ =>
      let l := ledger c in
      (Ok tt,
       {| tree := update_at path (write v now) (ensure_path path (tree c));
          ledger :=
            {| gets := gets l; hits := hits l; misses := misses l;
               adds := S (adds l); invalidations := invalidations l;
               paths_checked := paths_checked l;
               paths_hit := paths_hit l;
               paths_missed := paths_missed l;
               paths_added := bump (path_string path) (paths_added l);
               paths_invalidated := paths_invalidated l |} |})
  end.

(** Modelled from the spec: [DataCache.invalidate] (section 4.2):
    delegates to [collapse]; counted only where a node existed. *)
Definition invalidate (path : Path) (c : DataCache)
  : Outcome bool * DataCache :=
  match path with
  | [] => (InvalidPath, c)
  | _ :: _ =>
      match collapse path (tree c) with
      | None => (Ok false, c)
      | Some root' =>
          let l := ledger c in
          (Ok true,
           {| tree := root';
              ledger :=
                {| gets := gets l; hits := hits l; misses := misses l;
                   adds := adds l; invalidations := S (invalidations l);
                   paths_checked := paths_checked l;
                   paths_hit := paths_hit l;
                   paths_missed := paths_missed l;
                   paths_added := paths_added l;
                   paths_invalidated :=
                     bump (path_string path) (paths_invalidated l) |} |})
      end
  end.

(** Modelled from the spec: [DataCache.stats] (section 4.2): the
    counters, nothing changed. *)
Definition stats (c : DataCache) : Ledger := ledger c.

(** Modelled from the spec: [DataCache.reset_stats] (section 4.2): the
    counters zeroed and the per-path mappings cleared, the tree kept. *)
Definition reset_stats (c : DataCache) : DataCache :=
  {| tree := tree c; ledger := empty_ledger |}.

End Engine.

Arguments Ok {A} a.
Arguments InvalidPath {A}.
Arguments Stored : clear implicits.
Arguments Node : clear implicits.
Arguments DataCache : clear implicits.
Arguments GetResult : clear implicits.

End core.

(** ** A cache for the examples

    The cascade scenario of the specification's section 8: values at
    [a/b], [a/b/c] and [a/d], written at times 1, 2 and 3, with a toy
    fingerprint. *)

Definition example_hash (v : Z) : Z := (v * 31 + 7)%Z.

Definition cascade_cache : core.DataCache Z Z nat :=
  snd (core.add example_hash [lit "a"; lit "d"] 3%Z 3
         (snd (core.add example_hash [lit "a"; lit "b"; lit "c"] 2%Z 2
                 (snd (core.add example_hash [lit "a"; lit "b"] 1%Z 1
                         core.new_cache))))).

(** A snapshot for the examples: [users] with the entries [1] and [2],
    and [config]. *)
Definition example_leaf (name : string) : TreeView.SnapNode :=
  {| TreeView.identifier := lit name; TreeView.has_data := true;
     TreeView.children := [] |}.

Definition example_snapshot : TreeView.SnapNode :=
  {| TreeView.identifier := lit "root"; TreeView.has_data := false;
     TreeView.children :=
       [(lit "users",
         {| TreeView.identifier := lit "users"; TreeView.has_data := false;
            TreeView.children :=
              [(lit "2", example_leaf "2"); (lit "1", example_leaf "1")] |});
        (lit "config", example_leaf "config")] |}.

(** * Properties *)

(** ** Strings: [split], [join], [trim] *)

Section StringFacts.

Implicit Types (s p : ustring) (a : list ustring) (c sep : N).

Lemma split_not_nil sep s : Js.split sep s <> [].
Proof.
  destruct s as [|c r]; simpl; [discriminate|].
  destruct (c =? sep)%N; [discriminate|].
  destruct (Js.split sep r); discriminate.
Qed.

(** Joining the pieces with the separator gives the string back. *)
Lemma join_split sep s : Js.join [sep] (Js.split sep s) = s.
Proof.
  induction s as [|c r IH]; simpl; [reflexivity|].
  destruct (N.eqb_spec c sep) as [->|Hne].
  - pose proof (split_not_nil sep r) as Hnil.
    destruct (Js.split sep r) as [|x rest] eqn:E; [contradiction|].
    simpl in *. now rewrite IH.
  - destruct (Js.split sep r) as [|x rest] eqn:E.
    + now destruct (split_not_nil sep r).
    + simpl in *. destruct rest; simpl in *; now rewrite <- IH.
Qed.

(** No piece contains the separator. *)
Lemma split_no_sep sep s : Forall (fun p => sep ∉ p) (Js.split sep s).
Proof.
  induction s as [|c r IH]; simpl.
  - repeat constructor. apply not_elem_of_nil.
  - destruct (N.eqb_spec c sep) as [->|Hne].
    + constructor; [apply not_elem_of_nil | exact IH].
    + destruct (Js.split sep r) as [|x rest].
      * repeat constructor. rewrite elem_of_cons, elem_of_nil.
        intros [Heq|[]]. congruence.
      * inversion IH; subst. constructor; [|assumption].
        rewrite elem_of_cons. intros [Heq|Hin]; [congruence|tauto].
Qed.

(** Splitting a joined array of separator-free strings gives the array
    back. *)
Lemma split_join sep a :
  a <> [] -> Forall (fun p => sep ∉ p) a ->
  Js.split sep (Js.join [sep] a) = a.
Proof.
  induction a as [|x rest IH]; [congruence|]. intros _ Hall.
  inversion Hall as [|? ? Hx Hrest]; subst.
  assert (Hpre : forall y tail,
             sep ∉ y ->
             Js.split sep (y ++ sep :: tail) = y :: Js.split sep tail).
  { induction y as [|c y IHy]; intros tail Hy; simpl.
    - now rewrite N.eqb_refl.
    - destruct (N.eqb_spec c sep) as [->|Hne]; [set_solver|].
      rewrite IHy by set_solver. reflexivity. }
  assert (Hone : forall y, sep ∉ y -> Js.split sep y = [y]).
  { induction y as [|c y IHy]; intros Hy; simpl; [reflexivity|].
    destruct (N.eqb_spec c sep) as [->|Hne]; [set_solver|].
    rewrite IHy by set_solver. reflexivity. }
  destruct rest as [|x' rest'].
  - simpl. now apply Hone.
  - change (Js.join [sep] (x :: x' :: rest'))
      with (x ++ sep :: Js.join [sep] (x' :: rest')).
    rewrite Hpre by assumption. f_equal. apply IH; [discriminate|assumption].
Qed.

Lemma trimStart_nil s : Js.trimStart s = [] <-> blank s = true.
Proof.
  unfold blank. induction s as [|c r IH]; simpl; [tauto|].
  destruct (Js.is_white c); simpl; [exact IH|]. split; discriminate.
Qed.

Lemma blank_rev s : blank (rev s) = blank s.
Proof.
  unfold blank. apply eq_true_iff_eq.
  rewrite !forallb_forall. split; intros Hall x Hx; apply Hall.
  - now apply in_rev in Hx.
  - now apply in_rev.
Qed.

(** What [trimStart] leaves is not blank, unless nothing is left. *)
Lemma trimStart_blank s : blank (Js.trimStart s) = true -> Js.trimStart s = [].
Proof.
  induction s as [|c r IH]; simpl; [reflexivity|].
  destruct (Js.is_white c) eqn:E; [exact IH|].
  unfold blank. simpl. rewrite E. discriminate.
Qed.

(** [s.trim()] is empty exactly for the strings of white space only. *)
Lemma trim_nil s : Js.trim s = [] <-> blank s = true.
Proof.
  unfold Js.trim, Js.trimEnd. split.
  - intros Hnil. apply (f_equal (@rev N)) in Hnil.
    rewrite rev_involutive in Hnil. simpl in Hnil.
    apply trimStart_nil in Hnil. rewrite blank_rev in Hnil.
    apply trimStart_nil. now apply trimStart_blank.
  - intros Hb. apply trimStart_nil in Hb. rewrite Hb. reflexivity.
Qed.

(** The filter of [parsePath] drops exactly the blank pieces, the empty
    one among them. *)
Lemma keep_segment_blank p :
  DependencyCacheVisualizer.keep_segment p = negb (blank p).
Proof.
  unfold DependencyCacheVisualizer.keep_segment, Js.str_eqb.
  destruct p as [|c r]; [reflexivity|]. simpl Js.truthy. cbv iota beta.
  rewrite andb_true_l. f_equal.
  apply eq_true_iff_eq. rewrite bool_decide_eq_true. apply trim_nil.
Qed.

(** [formatPath] leaves a path that does not start with ['root'] as it
    is, and drops the first element of one that does. *)
Lemma displayPath_plain (q : list ustring) :
  hd_error q <> Some (lit "root") ->
  DependencyCacheVisualizer.displayPath (Some q) = Some q.
Proof.
  destruct q as [|x q]; intros Hq; [reflexivity|]. simpl.
  unfold Js.str_eqb. case_bool_decide as Hx; [|reflexivity].
  subst x. now destruct Hq.
Qed.

Lemma displayPath_root (rest : list ustring) :
  DependencyCacheVisualizer.displayPath (Some (lit "root" :: rest))
  = Some rest.
Proof. reflexivity. Qed.

(** The filter of [parsePath] keeps an array without blank strings. *)
Lemma filter_keep_all a :
  Forall (fun seg => blank seg = false) a ->
  List.filter DependencyCacheVisualizer.keep_segment a = a.
Proof.
  induction 1 as [|seg rest Hb _ IH]; [reflexivity|].
  simpl. rewrite keep_segment_blank, Hb. simpl. now rewrite IH.
Qed.

End StringFacts.

(** ** The path helpers of the presentation layer *)

(** C5. [parsePath(s)] is the list of the ['/']-separated pieces of [s]
    with every empty or white-space-only piece removed: it is the
    filter of the specification's words over the pieces; the pieces
    are the one way to cut [s] into separator-free strings that ['/']
    joins back to [s]; every segment kept is non-empty and not blank;
    and ['a//b'] and ['a/b'] yield the same segments. *)
Theorem parsePath_drops_blank_pieces (s : ustring) :
  DependencyCacheVisualizer.parsePath s = spec_segments s
  /\ Js.join [slash] (Js.split slash s) = s
  /\ Forall (fun p => slash ∉ p) (Js.split slash s)
  /\ (forall pieces, pieces <> [] -> Forall (fun p => slash ∉ p) pieces ->
        Js.join [slash] pieces = s -> Js.split slash s = pieces)
  /\ Forall (fun p => p <> [] /\ blank p = false /\ (slash ∉ p))
       (DependencyCacheVisualizer.parsePath s)
  /\ DependencyCacheVisualizer.parsePath (lit "a//b")
     = DependencyCacheVisualizer.parsePath (lit "a/b").
Proof.
  assert (Heq : DependencyCacheVisualizer.parsePath s = spec_segments s).
  { unfold DependencyCacheVisualizer.parsePath, spec_segments.
    apply filter_ext. intros p. apply keep_segment_blank. }
  split; [exact Heq|].
  split; [apply join_split|].
  split; [apply split_no_sep|].
  split; [intros pieces Hne Hfree <-; now apply split_join|].
  split; [|reflexivity].
  rewrite Heq. unfold spec_segments. apply Forall_forall. intros p Hp.
  apply list_elem_of_In, filter_In in Hp as [Hin Hkeep].
  apply negb_true_iff in Hkeep. apply list_elem_of_In in Hin.
  pose proof (split_no_sep slash s) as Hsep.
  rewrite Forall_forall in Hsep.
  split; [intros ->; discriminate|].
  split; [exact Hkeep | now apply Hsep].
Qed.

Lemma parsePath_drops_blank_pieces_witness :
  Js.split slash (lit "a//b") = [lit "a"; lit ""; lit "b"]
  /\ DependencyCacheVisualizer.parsePath (lit "a//b") = [lit "a"; lit "b"].
Proof.
  destruct (parsePath_drops_blank_pieces (lit "a//b"))
    as [Hspec [_ [_ [Hpieces _]]]].
  split.
  - apply Hpieces.
    + discriminate.
    + apply (bool_decide_unpack _). vm_compute. exact I.
    + reflexivity.
  - rewrite Hspec. reflexivity.
Defined.

(** C7, as written, at a path whose second segment is again ['root']:
    [formatPath(['root','root','a'])] is ['root/a'], while [formatPath]
    of the path without its first element is ['a']. *)
Lemma formatPath_strips_one_root_only :
  let p := [lit "root"; lit "root"; lit "a"] in
  hd_error p = Some (lit "root")
  /\ DependencyCacheVisualizer.formatPath (Some p) = lit "root/a"
  /\ DependencyCacheVisualizer.formatPath (Some (tl p)) = lit "a"
  /\ DependencyCacheVisualizer.formatPath (Some p)
     <> DependencyCacheVisualizer.formatPath (Some (tl p))
  /\ NodeDetailsPanel.formatPath (Some p)
     <> NodeDetailsPanel.formatPath (Some (tl p)).
Proof. cbv zeta. repeat split; try reflexivity; discriminate. Qed.

(** C7, amended.  For a path array [p] whose first element is ['root'],
    both [formatPath] helpers give the segments after that first
    element joined with ['/'], which is [formatPath] of the rest where
    the rest does not itself start with ['root']; for [p] not starting
    with ['root'] they join all segments of [p] with ['/']. *)
Theorem formatPath_strips_leading_root (p : list ustring) :
  (forall rest, p = lit "root" :: rest ->
     DependencyCacheVisualizer.formatPath (Some p) = Js.join [slash] rest
     /\ NodeDetailsPanel.formatPath (Some p) = Js.join [slash] rest
     /\ (hd_error rest <> Some (lit "root") ->
         DependencyCacheVisualizer.formatPath (Some p)
         = DependencyCacheVisualizer.formatPath (Some rest)
         /\ NodeDetailsPanel.formatPath (Some p)
            = NodeDetailsPanel.formatPath (Some rest)))
  /\ (hd_error p <> Some (lit "root") ->
      DependencyCacheVisualizer.formatPath (Some p) = Js.join [slash] p
      /\ NodeDetailsPanel.formatPath (Some p) = Js.join [slash] p).
Proof.
  split.
  - intros rest ->.
    unfold DependencyCacheVisualizer.formatPath, NodeDetailsPanel.formatPath.
    rewrite displayPath_root.
    split; [reflexivity|]. split; [reflexivity|].
    intros Hrest. now rewrite (displayPath_plain rest Hrest).
  - intros Hp.
    unfold DependencyCacheVisualizer.formatPath, NodeDetailsPanel.formatPath.
    rewrite (displayPath_plain p Hp). split; reflexivity.
Qed.

Lemma formatPath_strips_leading_root_witness :
  DependencyCacheVisualizer.formatPath (Some [lit "root"; lit "users"; lit "1"])
  = lit "users/1"
  /\ DependencyCacheVisualizer.formatPath (Some [lit "users"; lit "1"])
     = lit "users/1".
Proof.
  split.
  - destruct (formatPath_strips_leading_root
                [lit "root"; lit "users"; lit "1"]) as [Hroot _].
    destruct (Hroot [lit "users"; lit "1"] eq_refl) as [_ [_ Hrest]].
    destruct Hrest as [-> _]; [discriminate | reflexivity].
  - destruct (formatPath_strips_leading_root [lit "users"; lit "1"])
      as [_ Hplain].
    destruct Hplain as [-> _]; [discriminate | reflexivity].
Defined.

(** C8. Round trip of the path helpers: for a non-empty array [p] of
    strings that contain no ['/'] and are neither empty nor white space
    only, whose first element is not ['root'],
    [parsePath(formatPath(p))] is [p]. *)
Theorem parsePath_formatPath (p : list ustring) :
  p <> [] ->
  Forall (fun seg => (slash ∉ seg) /\ seg <> [] /\ blank seg = false) p ->
  hd_error p <> Some (lit "root") ->
  DependencyCacheVisualizer.parsePath
    (DependencyCacheVisualizer.formatPath (Some p)) = p.
Proof.
  intros Hne Hall Hroot.
  unfold DependencyCacheVisualizer.formatPath,
    DependencyCacheVisualizer.parsePath.
  rewrite (displayPath_plain p Hroot).
  rewrite split_join; [|assumption|].
  - apply filter_keep_all.
    eapply Forall_impl; [exact Hall|]. intros seg [_ [_ Hb]]. exact Hb.
  - eapply Forall_impl; [exact Hall|]. intros seg [Hs _]. exact Hs.
Qed.

Lemma parsePath_formatPath_witness :
  DependencyCacheVisualizer.parsePath
    (DependencyCacheVisualizer.formatPath
       (Some [lit "users"; lit "profile"; lit "data"]))
  = [lit "users"; lit "profile"; lit "data"].
Proof.
  apply parsePath_formatPath.
  - discriminate.
  - apply (bool_decide_unpack _). vm_compute. exact I.
  - discriminate.
Defined.

(** ** The API client *)

(** C9. Called with an argument that is not an array, each of
    [getData], [addData] and [invalidatePath] throws, before anything is
    returned, the error ['Path must be an array of strings.'], and the
    requests issued are those issued before the call: none is sent. *)
Theorem api_rejects_non_array_path
  (settle : api.Net -> api.Request -> Settled JsValue)
  (path data : JsValue) (sent : api.Net) :
  Array_isArray path = false ->
  api.getData settle path sent
  = (Thrown (lit "Path must be an array of strings."), sent)
  /\ api.addData settle path data sent
     = (Thrown (lit "Path must be an array of strings."), sent)
  /\ api.invalidatePath settle path sent
     = (Thrown (lit "Path must be an array of strings."), sent).
Proof.
  intros Hnot. unfold api.getData, api.addData, api.invalidatePath.
  rewrite Hnot. simpl. repeat split.
Qed.

Lemma api_rejects_non_array_path_witness :
  api.getData (fun _ _ => Fulfilled JNull) (JStr (lit "users/1")) []
  = (Thrown (lit "Path must be an array of strings."), [])
  /\ api.addData (fun _ _ => Fulfilled JNull) (JStr (lit "users/1"))
       (JNum 1) []
     = (Thrown (lit "Path must be an array of strings."), [])
  /\ api.invalidatePath (fun _ _ => Fulfilled JNull) (JStr (lit "users/1")) []
     = (Thrown (lit "Path must be an array of strings."), []).
Proof.
  apply (api_rejects_non_array_path (fun _ _ => Fulfilled JNull)
           (JStr (lit "users/1")) (JNum 1) []).
  reflexivity.
Defined.

(** With an array the request goes out: the guard is what stops the
    call above. *)
Lemma api_sends_for_array
  (settle : api.Net -> api.Request -> Settled JsValue)
  (items : list JsValue) (sent : api.Net) :
  exists promise r,
    api.getData settle (JArr items) sent = (Normal promise, sent ++ [r])
    /\ api.url r = lit "/api/get-data".
Proof. eexists _, _. split; reflexivity. Qed.

(** ** The statistics panel *)

Section StatsFacts.

Implicit Types (keys seen : list ustring) (k : ustring).

Lemma Set_add_all_spec keys : forall seen,
  NoDup seen ->
  NoDup (fold_left Js.Set_add keys seen)
  /\ (forall k, k ∈ fold_left Js.Set_add keys seen <-> k ∈ seen \/ k ∈ keys).
Proof.
  induction keys as [|x keys IH]; intros seen Hnd; simpl.
  - split; [assumption|]. intros k. rewrite elem_of_nil. tauto.
  - assert (Hnd' : NoDup (Js.Set_add seen x)).
    { unfold Js.Set_add. case_bool_decide as Hin; [assumption|].
      apply NoDup_app. split; [assumption|]. split.
      - intros y Hy Hyx. apply list_elem_of_singleton in Hyx. now subst.
      - apply NoDup_singleton. }
    destruct (IH _ Hnd') as [Hres Hmem]. split; [assumption|].
    intros k. rewrite Hmem, elem_of_cons. unfold Js.Set_add.
    case_bool_decide as Hin.
    + split; [tauto|]. intros [?|[->|?]]; tauto.
    + rewrite elem_of_app, list_elem_of_singleton. tauto.
Qed.

(** [Array.from(new Set(keys))] lists each key of [keys] once. *)
Lemma Set_from_spec keys :
  NoDup (Js.Set_from keys) /\ (forall k, k ∈ Js.Set_from keys <-> k ∈ keys).
Proof.
  destruct (Set_add_all_spec keys [] (NoDup_nil_2)) as [Hnd Hmem].
  split; [exact Hnd|]. intros k. rewrite (Hmem k), elem_of_nil. tauto.
Qed.

(** [o[k]] is defined exactly for the keys of [o]. *)
Lemma get_None {A} (o : list (ustring * A)) k :
  Js.get o k = None <-> k ∉ Js.Object_keys o.
Proof.
  induction o as [|[k' v] o IH]; simpl.
  - split; [intros _; apply not_elem_of_nil | reflexivity].
  - unfold Js.str_eqb at 1. rewrite not_elem_of_cons.
    case_bool_decide as Hk; [|rewrite IH; intuition congruence].
    split; [discriminate|]. intros [Hne _]. now destruct Hne.
Qed.

(** A name that no object inherits is looked up among the own
    properties only. *)
Lemma member_plain {A} (o : list (ustring * A)) k :
  k ∉ Js.Object_prototype_names ->
  Js.member o k = match Js.get o k with
                  | Some v => Js.own v
                  | None => Js.missing
                  end.
Proof.
  intros Hk. unfold Js.member. destruct (Js.get o k); [reflexivity|].
  now rewrite bool_decide_eq_false_2.
Qed.

(** A count is 0 for a path that is absent from the mapping, unless the
    path is the name of an inherited member. *)
Lemma count_or_0_absent (m : StatsPanel.Counts) k :
  k ∉ Js.Object_keys m -> k ∉ Js.Object_prototype_names ->
  StatsPanel.count_or_0 m k = StatsPanel.count 0.
Proof.
  intros Hk Hplain. apply get_None in Hk. unfold StatsPanel.count_or_0.
  now rewrite (member_plain m k Hplain), Hk.
Qed.

(** For such a name the cell holds the inherited member. *)
Lemma count_or_0_inherited (m : StatsPanel.Counts) k :
  k ∉ Js.Object_keys m -> k ∈ Js.Object_prototype_names ->
  StatsPanel.count_or_0 m k = StatsPanel.member_value k.
Proof.
  intros Hk Hproto. apply get_None in Hk.
  unfold StatsPanel.count_or_0, Js.member.
  now rewrite Hk, bool_decide_eq_true_2.
Qed.

(** A count that is present is reported as it is. *)
Lemma count_or_0_present (m : StatsPanel.Counts) k c :
  Js.get m k = Some c -> StatsPanel.count_or_0 m k = StatsPanel.count c.
Proof.
  intros Hk. unfold StatsPanel.count_or_0, Js.member. rewrite Hk.
  destruct (Z.eqb_spec c 0); congruence.
Qed.

(** Away from the inherited names every cell is a number. *)
Lemma count_or_0_plain (m : StatsPanel.Counts) k :
  k ∉ Js.Object_prototype_names ->
  exists n, StatsPanel.count_or_0 m k = StatsPanel.count n.
Proof.
  intros Hplain. unfold StatsPanel.count_or_0.
  rewrite (member_plain m k Hplain). destruct (Js.get m k); eauto.
Qed.

Lemma tableRows_paths (checked hit missed added invalidated : StatsPanel.Counts) :
  map StatsPanel.path
    (StatsPanel.tableRows checked hit missed added invalidated)
  = StatsPanel.allPaths checked hit missed added invalidated.
Proof. unfold StatsPanel.tableRows. rewrite map_map. apply map_id. Qed.

(** The paths of the table: the union of the five key sets, each path
    once. *)
Lemma allPaths_spec (checked hit missed added invalidated : StatsPanel.Counts) :
  NoDup (StatsPanel.allPaths checked hit missed added invalidated)
  /\ (forall k,
        k ∈ StatsPanel.allPaths checked hit missed added invalidated <->
        k ∈ Js.Object_keys checked \/ k ∈ Js.Object_keys hit
        \/ k ∈ Js.Object_keys missed \/ k ∈ Js.Object_keys added
        \/ k ∈ Js.Object_keys invalidated).
Proof.
  unfold StatsPanel.allPaths.
  destruct (Set_from_spec
              (Js.Object_keys checked ++ Js.Object_keys hit
               ++ Js.Object_keys missed ++ Js.Object_keys added
               ++ Js.Object_keys invalidated)) as [Hnd Hmem].
  split; [exact Hnd|]. intros k. rewrite Hmem, !elem_of_app. tauto.
Qed.

(** The cells of a row are the five lookups of its path. *)
Lemma tableRows_cells (checked hit missed added invalidated : StatsPanel.Counts)
  (row : StatsPanel.Row) :
  row ∈ StatsPanel.tableRows checked hit missed added invalidated ->
  StatsPanel.checked row = StatsPanel.count_or_0 checked (StatsPanel.path row)
  /\ StatsPanel.hit row = StatsPanel.count_or_0 hit (StatsPanel.path row)
  /\ StatsPanel.missed row = StatsPanel.count_or_0 missed (StatsPanel.path row)
  /\ StatsPanel.added row = StatsPanel.count_or_0 added (StatsPanel.path row)
  /\ StatsPanel.invalidated row
     = StatsPanel.count_or_0 invalidated (StatsPanel.path row).
Proof.
  unfold StatsPanel.tableRows. intros Hrow.
  apply list_elem_of_fmap in Hrow as [k [-> _]]. now repeat split.
Qed.

(** The table is computed exactly when no per-path field is [null], and
    then from the five destructured mappings. *)
Lemma pathTableData_Some (stats : option StatsPanel.Stats)
  (rows : list StatsPanel.Row) :
  StatsPanel.pathTableData stats = Some rows <->
  exists checked hit missed added invalidated,
    StatsPanel.mapping StatsPanel.paths_checked stats = Some checked
    /\ StatsPanel.mapping StatsPanel.paths_hit stats = Some hit
    /\ StatsPanel.mapping StatsPanel.paths_missed stats = Some missed
    /\ StatsPanel.mapping StatsPanel.paths_added stats = Some added
    /\ StatsPanel.mapping StatsPanel.paths_invalidated stats
       = Some invalidated
    /\ rows = StatsPanel.tableRows checked hit missed added invalidated.
Proof.
  unfold StatsPanel.pathTableData.
  destruct (StatsPanel.mapping StatsPanel.paths_checked stats) as [c|],
    (StatsPanel.mapping StatsPanel.paths_hit stats) as [h|],
    (StatsPanel.mapping StatsPanel.paths_missed stats) as [m|],
    (StatsPanel.mapping StatsPanel.paths_added stats) as [a|],
    (StatsPanel.mapping StatsPanel.paths_invalidated stats) as [i|];
    (split;
     [ intros Hrows; try discriminate; injection Hrows as <-;
       now exists c, h, m, a, i
     | intros (c' & h' & m' & a' & i' & Hc & Hh & Hm & Ha & Hi & ->);
       congruence ]).
Qed.

(** What holds of the table for every stats object without a [null]
    field: one row per path of the union of the five key sets; a count
    that is present is reported, and one whose path is absent is 0 when
    the path is not the name of an inherited member. *)
Lemma pathTableData_plain_rows (stats : option StatsPanel.Stats)
  (rows : list StatsPanel.Row) :
  StatsPanel.pathTableData stats = Some rows ->
  exists checked hit missed added invalidated,
    StatsPanel.mapping StatsPanel.paths_checked stats = Some checked
    /\ StatsPanel.mapping StatsPanel.paths_hit stats = Some hit
    /\ StatsPanel.mapping StatsPanel.paths_missed stats = Some missed
    /\ StatsPanel.mapping StatsPanel.paths_added stats = Some added
    /\ StatsPanel.mapping StatsPanel.paths_invalidated stats
       = Some invalidated
    /\ NoDup (map StatsPanel.path rows)
    /\ (forall k, k ∈ map StatsPanel.path rows <->
          k ∈ Js.Object_keys checked \/ k ∈ Js.Object_keys hit
          \/ k ∈ Js.Object_keys missed \/ k ∈ Js.Object_keys added
          \/ k ∈ Js.Object_keys invalidated)
    /\ (forall row, row ∈ rows ->
        StatsPanel.path row ∉ Js.Object_prototype_names ->
          (StatsPanel.path row ∉ Js.Object_keys checked ->
           StatsPanel.checked row = StatsPanel.count 0)
          /\ (StatsPanel.path row ∉ Js.Object_keys hit ->
              StatsPanel.hit row = StatsPanel.count 0)
          /\ (StatsPanel.path row ∉ Js.Object_keys missed ->
              StatsPanel.missed row = StatsPanel.count 0)
          /\ (StatsPanel.path row ∉ Js.Object_keys added ->
              StatsPanel.added row = StatsPanel.count 0)
          /\ (StatsPanel.path row ∉ Js.Object_keys invalidated ->
              StatsPanel.invalidated row = StatsPanel.count 0))
    /\ (forall row, row ∈ rows ->
          (forall c, Js.get checked (StatsPanel.path row) = Some c ->
                     StatsPanel.checked row = StatsPanel.count c)
          /\ (forall c, Js.get hit (StatsPanel.path row) = Some c ->
                        StatsPanel.hit row = StatsPanel.count c)
          /\ (forall c, Js.get missed (StatsPanel.path row) = Some c ->
                        StatsPanel.missed row = StatsPanel.count c)
          /\ (forall c, Js.get added (StatsPanel.path row) = Some c ->
                        StatsPanel.added row = StatsPanel.count c)
          /\ (forall c, Js.get invalidated (StatsPanel.path row) = Some c ->
                        StatsPanel.invalidated row = StatsPanel.count c)).
Proof.
  intros Hrows.
  apply pathTableData_Some in Hrows
    as (c & h & m & a & i & Hc & Hh & Hm & Ha & Hi & ->).
  exists c, h, m, a, i. do 5 (split; [assumption|]).
  rewrite tableRows_paths.
  destruct (allPaths_spec c h m a i) as [Hnd Hmem].
  split; [exact Hnd|]. split; [exact Hmem|]. split.
  - intros row Hrow Hplain.
    destruct (tableRows_cells c h m a i row Hrow)
      as (-> & -> & -> & -> & ->).
    repeat split; intros Habsent; now apply count_or_0_absent.
  - intros row Hrow.
    destruct (tableRows_cells c h m a i row Hrow)
      as (-> & -> & -> & -> & ->).
    repeat split; intros n; apply count_or_0_present.
Qed.

End StatsFacts.

(** C10. The table for the stats object after one 'Add/Update' and one
    'Get' of the path ['constructor']: its one row is the row of that
    path, which is a key of three of the five mappings; the path is
    absent from [paths_missed] and [paths_invalidated], and neither
    count of the row is the 0 of [|| 0]: both cells hold the member that
    every object inherits under the name ['constructor']. *)
Theorem pathTableData_inherited_member_not_zero :
  let stats :=
    {| StatsPanel.gets := Some 1%Z; StatsPanel.hits := Some 1%Z;
       StatsPanel.misses := Some 0%Z; StatsPanel.adds := Some 1%Z;
       StatsPanel.invalidations := Some 0%Z;
       StatsPanel.paths_checked :=
         StatsPanel.field_mapping [(lit "constructor", 1%Z)];
       StatsPanel.paths_hit :=
         StatsPanel.field_mapping [(lit "constructor", 1%Z)];
       StatsPanel.paths_missed := StatsPanel.field_mapping [];
       StatsPanel.paths_added :=
         StatsPanel.field_mapping [(lit "constructor", 1%Z)];
       StatsPanel.paths_invalidated := StatsPanel.field_mapping [] |} in
  StatsPanel.mapping StatsPanel.paths_missed (Some stats) = Some []
  /\ StatsPanel.mapping StatsPanel.paths_invalidated (Some stats) = Some []
  /\ StatsPanel.pathTableData (Some stats)
     = Some [ {| StatsPanel.path := lit "constructor";
                 StatsPanel.checked := StatsPanel.count 1;
                 StatsPanel.hit := StatsPanel.count 1;
                 StatsPanel.missed :=
                   StatsPanel.member_value (lit "constructor");
                 StatsPanel.added := StatsPanel.count 1;
                 StatsPanel.invalidated :=
                   StatsPanel.member_value (lit "constructor") |} ].
Proof.
  cbv zeta. split; [reflexivity|]. split; [reflexivity|].
  vm_compute. reflexivity.
Qed.

(** ** The tree view *)

Section SortFacts.

Context {A : Type} (compareFn : A -> A -> Z).

#[local] Abbreviation not_after := (Js.not_after compareFn).

(** A consistent comparator orders any two elements, transitively. *)
Hypothesis compare_total : forall a b, not_after a b \/ not_after b a.
Hypothesis compare_trans :
  forall a b c, not_after a b -> not_after b c -> not_after a c.

Lemma sort_insert_perm x (l : list A) :
  Permutation (x :: l) (Js.sort_insert compareFn x l).
Proof.
  induction l as [|y l IH]; simpl; [reflexivity|].
  destruct (compareFn x y <=? 0)%Z; [reflexivity|].
  rewrite perm_swap. now apply perm_skip.
Qed.

Lemma Array_sort_perm (l : list A) :
  Permutation l (Js.Array_sort compareFn l).
Proof.
  induction l as [|x l IH]; simpl; [reflexivity|].
  rewrite <- sort_insert_perm. now apply perm_skip.
Qed.

Lemma sort_insert_sorted x (l : list A) :
  StronglySorted not_after l ->
  StronglySorted not_after (Js.sort_insert compareFn x l).
Proof.
  induction 1 as [|y l Hsorted IH Hy]; simpl.
  - repeat constructor.
  - destruct (Z.leb_spec (compareFn x y) 0) as [Hle|Hgt].
    + constructor; [now constructor|]. constructor; [exact Hle|].
      eapply Forall_impl; [exact Hy|]. intros z Hz.
      now apply (compare_trans x y z).
    + constructor; [exact IH|].
      assert (Hyx : not_after y x).
      { destruct (compare_total x y) as [Hxy|Hyx]; [|exact Hyx].
        unfold Js.not_after in Hxy. lia. }
      rewrite <- (sort_insert_perm x l). now constructor.
Qed.

Lemma Array_sort_sorted (l : list A) :
  StronglySorted not_after (Js.Array_sort compareFn l).
Proof.
  induction l as [|x l IH]; simpl; [constructor|].
  now apply sort_insert_sorted.
Qed.

End SortFacts.

(** The same for a comparator that is consistent on the elements
    sorted, which are those of a class [P], and maybe not elsewhere. *)
Section SortFactsOn.

Context {A : Type} (compareFn : A -> A -> Z) (P : A -> Prop).

#[local] Abbreviation not_after_on := (Js.not_after compareFn).

Hypothesis compare_total_on :
  forall a b, P a -> P b -> not_after_on a b \/ not_after_on b a.
Hypothesis compare_trans_on :
  forall a b c, P a -> P b -> P c ->
    not_after_on a b -> not_after_on b c -> not_after_on a c.

Lemma sort_insert_sorted_on x (l : list A) :
  P x -> Forall P l ->
  StronglySorted not_after_on l ->
  StronglySorted not_after_on (Js.sort_insert compareFn x l).
Proof.
  intros Hx Hl Hsorted. revert Hl.
  induction Hsorted as [|y l Hsorted IH Hy]; intros Hl; simpl.
  - repeat constructor.
  - apply Forall_cons in Hl as [HPy HPl].
    destruct (Z.leb_spec (compareFn x y) 0) as [Hle|Hgt].
    + constructor; [now constructor|]. constructor; [exact Hle|].
      rewrite Forall_forall in Hy, HPl. apply Forall_forall.
      intros z Hz. apply (compare_trans_on x y z); auto.
    + constructor; [now apply IH|].
      assert (Hyx : not_after_on y x).
      { destruct (compare_total_on x y Hx HPy) as [Hxy|Hyx]; [|exact Hyx].
        unfold Js.not_after in Hxy. lia. }
      rewrite <- (sort_insert_perm compareFn x l). now constructor.
Qed.

Lemma Array_sort_sorted_on (l : list A) :
  Forall P l -> StronglySorted not_after_on (Js.Array_sort compareFn l).
Proof.
  induction l as [|x l IH]; simpl; [constructor|]. intros Hl.
  apply Forall_cons in Hl as [Hx Hl].
  apply sort_insert_sorted_on; [exact Hx| |now apply IH].
  now rewrite <- (Array_sort_perm compareFn l).
Qed.

End SortFactsOn.

Section CodeUnitOrder.

Implicit Types a b c : ustring.

Lemma code_unit_compare_total a : forall b,
  (Js.code_unit_compare a b <= 0)%Z \/ (Js.code_unit_compare b a <= 0)%Z.
Proof.
  induction a as [|x a IH]; intros [|y b]; simpl; try lia.
  rewrite (N.compare_antisym x y).
  destruct (x ?= y)%N; simpl; try lia. apply IH.
Qed.

Lemma code_unit_compare_trans a : forall b c,
  (Js.code_unit_compare a b <= 0)%Z -> (Js.code_unit_compare b c <= 0)%Z ->
  (Js.code_unit_compare a c <= 0)%Z.
Proof.
  induction a as [|x a IH]; intros [|y b] [|z c]; simpl; try lia.
  destruct (N.compare_spec x y) as [->|Hxy|Hxy]; try lia.
  - destruct (N.compare_spec y z) as [->|Hyz|Hyz]; try lia. apply IH.
  - destruct (N.compare_spec y z) as [->|Hyz|Hyz]; try lia.
    + destruct (N.compare_spec x z); lia.
    + destruct (N.compare_spec x z); lia.
Qed.

Lemma code_unit_compare_antisym a : forall b,
  (Js.code_unit_compare a b <= 0)%Z -> (Js.code_unit_compare b a <= 0)%Z ->
  a = b.
Proof.
  induction a as [|x a IH]; intros [|y b]; simpl; try lia; [reflexivity|].
  rewrite (N.compare_antisym x y).
  destruct (N.compare_spec x y) as [->|Hxy|Hxy]; simpl; try lia.
  intros H1 H2. f_equal. now apply IH.
Qed.

End CodeUnitOrder.

(** ** The cache engine *)

Section EngineFacts.

Context {V H T : Type} (hash : V -> H).

Implicit Types (n m : core.Node V H T) (p q : core.Path) (s : ustring).

Lemma find_app p : forall q n,
  core.find (p ++ q) n
  = match core.find p n with
    | Some m => core.find q m
    | None => None
    end.
Proof.
  induction p as [|s p IH]; intros q n; simpl; [reflexivity|].
  destruct (core.children n !! s); [apply IH | reflexivity].
Qed.

(** [collapse] declines exactly where [find] finds nothing, and for the
    root. *)
Lemma collapse_None p : forall n,
  core.collapse p n = None <-> p = [] \/ core.find p n = None.
Proof.
  induction p as [|s p IH]; intros n; simpl; [tauto|].
  destruct (core.children n !! s) as [child|]; [|tauto].
  destruct p as [|s' p']; [simpl; intuition discriminate|].
  specialize (IH child).
  destruct (core.collapse (s' :: p') child).
  - split; [discriminate|]. intros [Hnil|Hfind]; [discriminate|].
    destruct IH as [_ IH]. discriminate IH. now right.
  - split; [|reflexivity]. intros _. right.
    destruct IH as [IH _]. destruct (IH eq_refl); [discriminate|assumption].
Qed.

(** After a collapse nothing is found at the path. *)
Lemma collapse_find_gone p : forall n n',
  core.collapse p n = Some n' -> core.find p n' = None.
Proof.
  induction p as [|s p IH]; intros n n' Hc; simpl in Hc; [discriminate|].
  destruct (core.children n !! s) as [child|]; [|discriminate].
  destruct p as [|s' p'].
  - inversion Hc; subst. simpl. now rewrite lookup_delete_eq.
  - destruct (core.collapse (s' :: p') child) as [child'|] eqn:E;
      [|discriminate].
    inversion Hc; subst. change (core.find (s :: s' :: p') ?x)
      with (match core.children x !! s with
            | Some c => core.find (s' :: p') c
            | None => None
            end).
    simpl core.children. rewrite lookup_insert_eq. now apply (IH child).
Qed.

(** A collapse keeps the data of every path that does not run through
    the collapsed node. *)
Lemma collapse_elsewhere p : forall q n n',
  core.collapse p n = Some n' ->
  (forall k, q <> p ++ k) ->
  core.lookup_data q n' = core.lookup_data q n.
Proof.
  unfold core.lookup_data.
  induction p as [|s p IH]; intros q n n' Hc Hq; simpl in Hc; [discriminate|].
  destruct (core.children n !! s) as [child|] eqn:Hs; [|discriminate].
  destruct q as [|s' q'].
  { simpl. destruct p as [|s' p'].
    - now inversion Hc.
    - destruct (core.collapse (s' :: p') child); [|discriminate].
      now inversion Hc. }
  destruct (decide (s = s')) as [<-|Hne].
  - destruct p as [|s2 p'].
    { destruct (Hq q'). reflexivity. }
    destruct (core.collapse (s2 :: p') child) as [child'|] eqn:E;
      [|discriminate].
    inversion Hc; subst. simpl core.find at 1. simpl core.children.
    rewrite lookup_insert_eq.
    change (core.find (s :: q') n)
      with (match core.children n !! s with
            | Some c => core.find q' c
            | None => None
            end).
    rewrite Hs. apply (IH q' child child' E).
    intros k Hk. apply (Hq k). simpl. now rewrite Hk.
  - assert (Hkeep : core.children n' !! s' = core.children n !! s').
    { destruct p as [|s2 p'].
      - inversion Hc; subst. simpl. now rewrite lookup_delete_ne.
      - destruct (core.collapse (s2 :: p') child); [|discriminate].
        inversion Hc; subst. simpl. now rewrite lookup_insert_ne. }
    simpl. now rewrite Hkeep.
Qed.

(** [ensure_path] leaves a node at the path. *)
Lemma ensure_path_find p : forall n,
  exists m, core.find p (core.ensure_path p n) = Some m.
Proof.
  induction p as [|s p IH]; intros n; simpl; [eauto|].
  rewrite lookup_insert_eq. apply IH.
Qed.

(** The write reaches the node at the path. *)
Lemma update_at_find p (f : core.Node V H T -> core.Node V H T) :
  forall n m,
  core.find p n = Some m -> core.find p (core.update_at p f n) = Some (f m).
Proof.
  induction p as [|s p IH]; intros n m Hfind; simpl in *.
  - now inversion Hfind.
  - destruct (core.children n !! s) as [child|]; [|discriminate].
    simpl. rewrite lookup_insert_eq. now apply IH.
Qed.

Lemma add_lookup_data p v now n :
  core.lookup_data p
    (core.update_at p (core.write hash v now) (core.ensure_path p n))
  = Some {| core.value := v; core.data_hash := hash v;
            core.timestamp := now |}.
Proof.
  unfold core.lookup_data.
  destruct (ensure_path_find p n) as [m Hm].
  now rewrite (update_at_find p _ _ m Hm).
Qed.

(** What [get] answers depends on the data at the path only. *)
Lemma get_result p (c : core.DataCache V H T) :
  p <> [] ->
  fst (core.get p c)
  = core.Ok
      match core.lookup_data p (core.tree c) with
      | Some d =>
          {| core.exists_ := true; core.got_value := Some (core.value d);
             core.got_hash := Some (core.data_hash d);
             core.got_timestamp := Some (core.timestamp d) |}
      | None => core.does_not_exist
      end.
Proof.
  destruct p as [|s p]; [congruence|]. intros _. unfold core.get.
  now destruct (core.lookup_data (s :: p) (core.tree c)).
Qed.

Lemma bump_other (key k : ustring) (m : gmap ustring nat) :
  k <> key -> core.bump key m !! k = m !! k.
Proof. intros Hk. unfold core.bump. now rewrite lookup_insert_ne. Qed.

Lemma bump_same (key : ustring) (m : gmap ustring nat) :
  core.bump key m !! key = Some (S (default 0 (m !! key))).
Proof. unfold core.bump. now rewrite lookup_insert_eq. Qed.

End EngineFacts.

(** C1. When [invalidate(p)] succeeds, [get] on [p] and on every path
    below [p] reports [exists = false]; every path that does not run
    through [p], a sibling of [p] for one, gets what it got before; and
    [paths_invalidated] changes at the path string of [p] only, by one
    when a node was there, as does [invalidations]: the nodes below
    [p] are not counted. *)
Theorem invalidate_cascades {V H T : Type} (c c' : core.DataCache V H T)
  (p : core.Path) (existed : bool) :
  core.invalidate p c = (core.Ok existed, c') ->
  (forall q, fst (core.get (p ++ q) c') = core.Ok core.does_not_exist)
  /\ (forall q, q <> [] -> (forall k, q <> p ++ k) ->
        fst (core.get q c') = fst (core.get q c))
  /\ (forall key, key <> core.path_string p ->
        core.paths_invalidated (core.ledger c') !! key
        = core.paths_invalidated (core.ledger c) !! key)
  /\ default 0 (core.paths_invalidated (core.ledger c') !! core.path_string p)
     = default 0 (core.paths_invalidated (core.ledger c) !! core.path_string p)
       + (if existed then 1 else 0)
  /\ core.invalidations (core.ledger c')
     = core.invalidations (core.ledger c) + (if existed then 1 else 0).
Proof.
  intros Hinv. unfold core.invalidate in Hinv.
  destruct p as [|s p]; [discriminate|].
  assert (Hne : forall q, (s :: p) ++ q <> []) by (intros q; discriminate).
  destruct (core.collapse (s :: p) (core.tree c)) as [root'|] eqn:Hc.
  - inversion Hinv; subst; clear Hinv.
    cbn [core.tree core.ledger core.paths_invalidated core.invalidations].
    split.
    { intros q. rewrite get_result by apply Hne. simpl core.tree.
      unfold core.lookup_data. rewrite find_app.
      now rewrite (collapse_find_gone _ _ _ Hc). }
    split.
    { intros q Hq Hoff. rewrite !get_result by assumption. simpl core.tree.
      now rewrite (collapse_elsewhere _ q _ _ Hc Hoff). }
    split; [intros key Hkey; now apply bump_other|].
    split; [rewrite bump_same; simpl; lia | lia].
  - inversion Hinv; subst; clear Hinv.
    split.
    { intros q. rewrite get_result by apply Hne.
      unfold core.lookup_data. rewrite find_app.
      assert (Hnone : core.find (s :: p) (core.tree c') = None).
      { apply collapse_None in Hc as [Hnil|Hnone]; [discriminate|exact Hnone]. }
      now rewrite Hnone. }
    split; [reflexivity|]. split; [reflexivity|]. split; lia.
Qed.

(** C2. For a non-empty path [p], [add(p, v)] followed by [get(p)]
    returns [exists = true] with the value [v] and the hash of [v]
    (and the time of the write), whatever the node held before; a
    second [add] at the node replaces the first value. *)
Theorem add_then_get {V H T : Type} (hash : V -> H)
  (c : core.DataCache V H T) (p : core.Path) (v : V) (now : T) :
  p <> [] ->
  exists c1,
    core.add hash p v now c = (core.Ok tt, c1)
    /\ fst (core.get p c1)
       = core.Ok {| core.exists_ := true; core.got_value := Some v;
                    core.got_hash := Some (hash v);
                    core.got_timestamp := Some now |}
    /\ (forall v2 now2, exists c2,
          core.add hash p v2 now2 c1 = (core.Ok tt, c2)
          /\ fst (core.get p c2)
             = core.Ok {| core.exists_ := true; core.got_value := Some v2;
                          core.got_hash := Some (hash v2);
                          core.got_timestamp := Some now2 |}).
Proof.
  intros Hp.
  assert (Hadd : forall (c0 : core.DataCache V H T) v0 now0, exists c1,
             core.add hash p v0 now0 c0 = (core.Ok tt, c1)
             /\ fst (core.get p c1)
                = core.Ok {| core.exists_ := true;
                             core.got_value := Some v0;
                             core.got_hash := Some (hash v0);
                             core.got_timestamp := Some now0 |}).
  { intros c0 v0 now0. destruct p as [|s p]; [congruence|].
    eexists. split; [reflexivity|].
    rewrite get_result by discriminate. cbn [core.tree].
    now rewrite add_lookup_data. }
  destruct (Hadd c v now) as [c1 [Hc1 Hget]].
  exists c1. split; [exact Hc1|]. split; [exact Hget|].
  intros v2 now2. apply Hadd.
Qed.

(** C3. For a non-empty path [p] at which no node exists,
    [invalidate(p)] returns false and leaves the cache, every global
    counter and every per-path mapping with it, as it was; hence after
    any [invalidate(p)] a second one returns false and the statistics
    are those after the first. *)
Theorem invalidate_absent_unchanged {V H T : Type}
  (c : core.DataCache V H T) (p : core.Path) :
  p <> [] ->
  (core.find p (core.tree c) = None ->
   core.invalidate p c = (core.Ok false, c))
  /\ (forall r c1, core.invalidate p c = (r, c1) ->
        core.invalidate p c1 = (core.Ok false, c1)
        /\ core.stats (snd (core.invalidate p c1)) = core.stats c1).
Proof.
  intros Hp.
  assert (Habsent : forall c0 : core.DataCache V H T,
             core.find p (core.tree c0) = None ->
             core.invalidate p c0 = (core.Ok false, c0)).
  { intros c0 Hnone. unfold core.invalidate.
    destruct p as [|s p]; [congruence|].
    assert (Hc : core.collapse (s :: p) (core.tree c0) = None)
      by (apply collapse_None; now right).
    now rewrite Hc. }
  split; [apply Habsent|].
  intros r c1 Hfirst.
  assert (Hgone : core.find p (core.tree c1) = None).
  { unfold core.invalidate in Hfirst. destruct p as [|s p]; [congruence|].
    destruct (core.collapse (s :: p) (core.tree c)) as [root'|] eqn:Hc.
    - inversion Hfirst; subst. simpl. now apply (collapse_find_gone _ _ _ Hc).
    - inversion Hfirst; subst.
      apply collapse_None in Hc as [Hnil|Hnone]; [discriminate|exact Hnone]. }
  rewrite (Habsent c1 Hgone). split; reflexivity.
Qed.

Lemma invalidate_cascades_witness :
  let c' := snd (core.invalidate [lit "a"; lit "b"] cascade_cache) in
  fst (core.get [lit "a"; lit "b"] c') = core.Ok core.does_not_exist
  /\ fst (core.get [lit "a"; lit "b"; lit "c"] c')
     = core.Ok core.does_not_exist
  /\ fst (core.get [lit "a"; lit "d"] c')
     = fst (core.get [lit "a"; lit "d"] cascade_cache)
  /\ core.paths_invalidated (core.ledger c') !! lit "a/b/c" = None.
Proof.
  cbv zeta.
  assert (Hinv : core.invalidate [lit "a"; lit "b"] cascade_cache
                 = (core.Ok true,
                    snd (core.invalidate [lit "a"; lit "b"] cascade_cache)))
    by (vm_compute; reflexivity).
  destruct (invalidate_cascades _ _ _ _ Hinv) as [Hbelow [Hoff [Hkeys _]]].
  split; [exact (Hbelow [])|]. split; [exact (Hbelow [lit "c"])|].
  split.
  - apply Hoff; [discriminate|]. intros k. vm_compute. discriminate.
  - rewrite Hkeys; [reflexivity | vm_compute; discriminate].
Defined.

Lemma add_then_get_witness :
  exists c1,
    core.add example_hash [lit "users"; lit "1"] 5%Z 10 core.new_cache
    = (core.Ok tt, c1)
    /\ fst (core.get [lit "users"; lit "1"] c1)
       = core.Ok {| core.exists_ := true; core.got_value := Some 5%Z;
                    core.got_hash := Some (example_hash 5);
                    core.got_timestamp := Some 10 |}.
Proof.
  destruct (add_then_get example_hash core.new_cache
              [lit "users"; lit "1"] 5%Z 10) as [c1 [Hadd [Hget _]]].
  - discriminate.
  - exists c1. split; [exact Hadd | exact Hget].
Defined.

Lemma invalidate_absent_unchanged_witness :
  core.invalidate [lit "a"; lit "x"] cascade_cache
  = (core.Ok false, cascade_cache)
  /\ core.invalidate [lit "a"; lit "b"]
       (snd (core.invalidate [lit "a"; lit "b"] cascade_cache))
     = (core.Ok false, snd (core.invalidate [lit "a"; lit "b"] cascade_cache)).
Proof.
  split.
  - apply (invalidate_absent_unchanged cascade_cache [lit "a"; lit "x"]).
    + discriminate.
    + vm_compute. reflexivity.
  - destruct (invalidate_absent_unchanged cascade_cache [lit "a"; lit "b"])
      as [_ Htwice]; [discriminate|].
    apply (Htwice (fst (core.invalidate [lit "a"; lit "b"] cascade_cache))).
    now destruct (core.invalidate [lit "a"; lit "b"] cascade_cache).
Defined.

(** ** Empty paths *)

Section EmptyPath.

Import DependencyCacheVisualizer.

Variable settle : api.Net -> api.Request -> Settled JsValue.
Variable JSON_parse : ustring -> option JsValue.
Variable statsFirst : api.Net -> bool.

(** With a path input that parses to no segment, [executeOperation]
    fails in its guard: the state is that of the failure branch and the
    requests are those issued before. *)
Lemma executeOperation_empty_path (operationFn : ApiFunction)
  (successMessage opType : ustring) (clearDataInput : bool)
  (u : Ui) (sent : api.Net) :
  parsePath (opPathInput u) = [] ->
  exists u',
    executeOperation settle JSON_parse statsFirst operationFn successMessage opType
      true clearDataInput (u, sent) = (JNull, (u', sent))
    /\ lastOperationResult u'
       = Some {| r_type := opType; r_success := false;
                 r_path := opPathInput u; r_response := None;
                 r_error :=
                   Some (lit "Path cannot be empty for this operation.") |}
    /\ error u'
       = Some (lit "Operation failed: "
               ++ lit "Path cannot be empty for this operation.")
    /\ tree u' = tree u /\ stats u' = stats u
    /\ opPathInput u' = opPathInput u /\ opDataInput u' = opDataInput u.
Proof.
  intros Hempty. unfold executeOperation, executeOperation_try.
  cbn [setLoading setError setLastOperationResult opPathInput].
  rewrite Hempty. cbn [length Nat.eqb andb].
  eexists. split; [reflexivity|]. repeat split.
Qed.

End EmptyPath.

(** C4. [get], [add] and [invalidate] with the empty path fail with
    [InvalidPath] and leave the cache, tree and statistics, as it was.
    In the presentation layer, when the path input parses to the empty
    path, the operation raises ['Path cannot be empty for this
    operation.'] with no request issued, and each of the three handlers
    ends with the requests issued before, the failure recorded under
    that message, and the tree and statistics shown unchanged. *)
Theorem empty_path_is_rejected :
  (forall (V H T : Type) (hash : V -> H) (c : core.DataCache V H T)
          (v : V) (now : T),
      core.get [] c = (core.InvalidPath, c)
      /\ core.add hash [] v now c = (core.InvalidPath, c)
      /\ core.invalidate [] c = (core.InvalidPath, c))
  /\ (forall (settle : api.Net -> api.Request -> Settled JsValue)
             (JSON_parse : ustring -> option JsValue)
  (statsFirst : api.Net -> bool)
             (u : DependencyCacheVisualizer.Ui) (sent : api.Net),
        DependencyCacheVisualizer.parsePath
          (DependencyCacheVisualizer.opPathInput u) = [] ->
        let message := lit "Path cannot be empty for this operation." in
        let rejected opType (after : DependencyCacheVisualizer.Ui * api.Net) :=
          snd after = sent
          /\ DependencyCacheVisualizer.lastOperationResult (fst after)
             = Some {| DependencyCacheVisualizer.r_type := opType;
                       DependencyCacheVisualizer.r_success := false;
                       DependencyCacheVisualizer.r_path :=
                         DependencyCacheVisualizer.opPathInput u;
                       DependencyCacheVisualizer.r_response := None;
                       DependencyCacheVisualizer.r_error := Some message |}
          /\ DependencyCacheVisualizer.error (fst after)
             = Some (lit "Operation failed: " ++ message)
          /\ DependencyCacheVisualizer.tree (fst after)
             = DependencyCacheVisualizer.tree u
          /\ DependencyCacheVisualizer.stats (fst after)
             = DependencyCacheVisualizer.stats u in
        (forall operationFn successMessage opType clearDataInput
                currentPathStr,
            DependencyCacheVisualizer.executeOperation_try settle JSON_parse statsFirst
              operationFn successMessage opType true clearDataInput
              currentPathStr (u, sent)
            = (Thrown message, (u, sent)))
        /\ rejected (lit "GET_DATA")
             (DependencyCacheVisualizer.handleGetData settle JSON_parse statsFirst
                (u, sent))
        /\ rejected (lit "ADD_DATA")
             (DependencyCacheVisualizer.handleAddData settle JSON_parse statsFirst
                (u, sent))
        /\ rejected (lit "INVALIDATE")
             (DependencyCacheVisualizer.handleInvalidate settle JSON_parse statsFirst
                (u, sent))).
Proof.
  split; [intros; repeat split|].
  intros settle JSON_parse statsFirst u sent Hempty. cbv zeta.
  split.
  { intros. unfold DependencyCacheVisualizer.executeOperation_try.
    rewrite Hempty. reflexivity. }
  split; [|split].
  - unfold DependencyCacheVisualizer.handleGetData.
    destruct (executeOperation_empty_path settle JSON_parse statsFirst
                DependencyCacheVisualizer.api_getData (lit "Data retrieved")
                (lit "GET_DATA") false u sent Hempty)
      as [u' [-> [Hlast [Herr [Htree [Hstats _]]]]]].
    cbn [to_boolean fst snd]. repeat split; assumption.
  - unfold DependencyCacheVisualizer.handleAddData.
    destruct (executeOperation_empty_path settle JSON_parse statsFirst
                DependencyCacheVisualizer.api_addData
                (lit "Data added/updated") (lit "ADD_DATA") true u sent
                Hempty)
      as [u' [-> [Hlast [Herr [Htree [Hstats _]]]]]].
    cbn [fst snd]. repeat split; assumption.
  - unfold DependencyCacheVisualizer.handleInvalidate.
    destruct (executeOperation_empty_path settle JSON_parse statsFirst
                DependencyCacheVisualizer.api_invalidatePath
                (lit "Path invalidated") (lit "INVALIDATE") false u sent
                Hempty)
      as [u' [-> [Hlast [Herr [Htree [Hstats _]]]]]].
    cbn [fst snd]. repeat split; assumption.
Qed.

Lemma empty_path_is_rejected_witness :
  let u :=
    {| DependencyCacheVisualizer.tree := None;
       DependencyCacheVisualizer.stats := None;
       DependencyCacheVisualizer.loading :=
         {| DependencyCacheVisualizer.loading_tree := false;
            DependencyCacheVisualizer.loading_stats := false;
            DependencyCacheVisualizer.loading_operation := false |};
       DependencyCacheVisualizer.error := None;
       DependencyCacheVisualizer.opPathInput := lit " / /";
       DependencyCacheVisualizer.opDataInput := lit "1";
       DependencyCacheVisualizer.lastOperationResult := None;
       DependencyCacheVisualizer.autoRefreshInterval := 0%Z;
       DependencyCacheVisualizer.refreshIntervalId := None;
       DependencyCacheVisualizer.toasts := [] |} in
  DependencyCacheVisualizer.executeOperation_try
    (fun _ _ => Fulfilled JNull) (fun _ => None) (fun _ => false)
    DependencyCacheVisualizer.api_invalidatePath (lit "Path invalidated")
    (lit "INVALIDATE") true false (lit " / /") (u, [])
  = (Thrown (lit "Path cannot be empty for this operation."), (u, []))
  /\ snd (DependencyCacheVisualizer.handleInvalidate
            (fun _ _ => Fulfilled JNull) (fun _ => None) (fun _ => false)
            (u, [])) = [].
Proof.
  cbv zeta.
  destruct empty_path_is_rejected as [_ Hui].
  match goal with
  | |- DependencyCacheVisualizer.executeOperation_try _ _ _ _ _ _ _ _ _
         (?u, _) = _ /\ _ =>
      destruct (Hui (fun _ _ => Fulfilled JNull) (fun _ => None)
                  (fun _ => false) u []
                  ltac:(vm_compute; reflexivity))
        as [Htry [_ [_ [Hsent _]]]]
  end.
  split; [apply Htry | exact Hsent].
Defined.

(** ** The model on the examples of the specification *)

Example parsePath_example :
  DependencyCacheVisualizer.parsePath (lit "users/profile/data")
  = [lit "users"; lit "profile"; lit "data"]
  /\ DependencyCacheVisualizer.parsePath (lit "/a// /b/") = [lit "a"; lit "b"]
  /\ DependencyCacheVisualizer.parsePath (lit "") = [].
Proof. repeat split. Qed.

Example formatPath_example :
  DependencyCacheVisualizer.formatPath (Some [lit "root"; lit "a"; lit "b"])
  = lit "a/b"
  /\ DependencyCacheVisualizer.formatPath None = lit ""
  /\ NodeDetailsPanel.formatPath None = lit "N/A"
  /\ DependencyCacheVisualizer.formatPath (Some []) = lit "".
Proof. repeat split. Qed.

(** A path that parses to a segment passes the guard and the request is
    sent. *)
Example handleInvalidate_sends :
  let u :=
    {| DependencyCacheVisualizer.tree := None;
       DependencyCacheVisualizer.stats := None;
       DependencyCacheVisualizer.loading :=
         {| DependencyCacheVisualizer.loading_tree := false;
            DependencyCacheVisualizer.loading_stats := false;
            DependencyCacheVisualizer.loading_operation := false |};
       DependencyCacheVisualizer.error := None;
       DependencyCacheVisualizer.opPathInput := lit "a/b";
       DependencyCacheVisualizer.opDataInput := lit "";
       DependencyCacheVisualizer.lastOperationResult := None;
       DependencyCacheVisualizer.autoRefreshInterval := 0%Z;
       DependencyCacheVisualizer.refreshIntervalId := None;
       DependencyCacheVisualizer.toasts := [] |} in
  map api.url
    (snd (DependencyCacheVisualizer.handleInvalidate
            (fun _ _ => Fulfilled JNull) (fun _ => None) (fun _ => false) (u, [])))
  = [lit "/api/invalidate"; lit "/api/tree"; lit "/api/stats"].
Proof. reflexivity. Qed.

(** The scenario of the specification's section 8. *)
Example scenario_statistics :
  let c0 : core.DataCache Z Z nat := core.new_cache in
  let c1 := snd (core.add example_hash [lit "users"; lit "1"] 7%Z 1 c0) in
  let (r2, c2) := core.get [lit "users"; lit "1"] c1 in
  let (r3, c3) := core.get [lit "users"; lit "2"] c2 in
  let (r4, c4) := core.invalidate [lit "users"] c3 in
  let (r5, c5) := core.get [lit "users"; lit "1"] c4 in
  r2 = core.Ok {| core.exists_ := true; core.got_value := Some 7%Z;
                  core.got_hash := Some (example_hash 7);
                  core.got_timestamp := Some 1 |}
  /\ r3 = core.Ok core.does_not_exist
  /\ core.misses (core.stats c3) = 1
  /\ r4 = core.Ok true
  /\ r5 = core.Ok core.does_not_exist
  /\ (core.gets (core.stats c4), core.hits (core.stats c4),
      core.misses (core.stats c4), core.adds (core.stats c4),
      core.invalidations (core.stats c4)) = (2, 1, 1, 1, 1).
Proof. vm_compute. repeat split. Qed.

(** * Further properties of the presentation layer *)

(** ** More on [parsePath] and [formatPath] *)

Section PathFacts.

Implicit Types (s p : ustring) (a : list ustring) (c : N).

(** A code unit that ends or cannot start a segment. *)
Lemma pieces_blank s :
  forallb blank (Js.split slash s)
  = forallb (fun c => (c =? slash)%N || Js.is_white c) s.
Proof.
  induction s as [|c r IH]; [reflexivity|]. simpl.
  destruct (c =? slash)%N eqn:Hc; simpl.
  - exact IH.
  - destruct (Js.split slash r) as [|piece pieces] eqn:E.
    + now destruct (split_not_nil slash r).
    + rewrite <- IH. simpl. unfold blank at 1. simpl.
      now rewrite andb_assoc.
Qed.

Lemma filter_nil_forallb {A} (f : A -> bool) (l : list A) :
  List.filter (fun x => negb (f x)) l = [] <-> forallb f l = true.
Proof.
  induction l as [|x l IH]; simpl; [tauto|].
  destruct (f x); simpl; [exact IH|]. split; discriminate.
Qed.

Lemma split_app s1 s2 :
  Js.split slash (s1 ++ slash :: s2)
  = Js.split slash s1 ++ Js.split slash s2.
Proof.
  induction s1 as [|c r IH]; simpl.
  - reflexivity.
  - destruct (c =? slash)%N; rewrite IH; [reflexivity|].
    destruct (Js.split slash r) as [|piece pieces] eqn:E; [|reflexivity].
    now destruct (split_not_nil slash r).
Qed.

(** [parsePath] undoes the joining of any array of separator-free,
    non-blank strings, the empty array included. *)
Lemma parsePath_join a :
  Forall (fun seg => (slash ∉ seg) /\ blank seg = false) a ->
  DependencyCacheVisualizer.parsePath (Js.join [slash] a) = a.
Proof.
  intros Hall. destruct a as [|x rest]; [reflexivity|].
  unfold DependencyCacheVisualizer.parsePath.
  rewrite split_join; [|discriminate|].
  - apply filter_keep_all.
    eapply Forall_impl; [exact Hall|]. now intros seg [_ Hb].
  - eapply Forall_impl; [exact Hall|]. now intros seg [Hs _].
Qed.

(** The segments of [parsePath] are of that kind. *)
Lemma parsePath_segments s :
  Forall (fun seg => (slash ∉ seg) /\ blank seg = false)
    (DependencyCacheVisualizer.parsePath s).
Proof.
  unfold DependencyCacheVisualizer.parsePath.
  apply Forall_forall. intros seg Hseg.
  apply list_elem_of_In, filter_In in Hseg as [Hin Hkeep].
  rewrite keep_segment_blank in Hkeep. apply negb_true_iff in Hkeep.
  split; [|exact Hkeep].
  pose proof (split_no_sep slash s) as Hsep.
  rewrite Forall_forall in Hsep. apply Hsep. now apply list_elem_of_In.
Qed.

End PathFacts.

(** X1. A path input parses to the empty path exactly when it consists
    of ['/'] and white space only; the empty input, for which the
    operation buttons are disabled, is one such. *)
Theorem parsePath_empty_iff (s : ustring) :
  (DependencyCacheVisualizer.parsePath s = [] <->
   Forall (fun c => c = slash \/ Js.is_white c = true) s)
  /\ (forall loading,
        OperationsPanel.buttonsDisabled loading s = false ->
        loading = false /\ s <> [])
  /\ (OperationsPanel.buttonsDisabled false s = true ->
      DependencyCacheVisualizer.parsePath s = []).
Proof.
  split; [|split].
  - unfold DependencyCacheVisualizer.parsePath.
    rewrite (filter_ext _ (fun p => negb (blank p)))
      by (intros p; apply keep_segment_blank).
    rewrite filter_nil_forallb, pieces_blank, forallb_forall, Forall_forall.
    split; intros Hall c Hc.
    + apply list_elem_of_In, Hall in Hc.
      apply orb_true_iff in Hc as [Hc|Hc]; [left | now right].
      now apply N.eqb_eq.
    + apply list_elem_of_In, Hall in Hc as [->|Hc]; apply orb_true_iff;
        [left; apply N.eqb_refl | now right].
  - unfold OperationsPanel.buttonsDisabled. intros loading Hen.
    apply orb_false_iff in Hen as [-> Hs]. split; [reflexivity|].
    now destruct s.
  - unfold OperationsPanel.buttonsDisabled. simpl.
    destruct s; [reflexivity | discriminate].
Qed.

Lemma parsePath_empty_iff_witness :
  DependencyCacheVisualizer.parsePath (lit " // ") = []
  /\ OperationsPanel.buttonsDisabled false (lit " // ") = false.
Proof.
  destruct (parsePath_empty_iff (lit " // ")) as [[_ Hempty] _].
  split; [|reflexivity]. apply Hempty.
  apply (bool_decide_unpack _). vm_compute. exact I.
Defined.

(** X2. [parsePath] is compositional: the segments of [s1 + '/' + s2]
    are those of [s1] followed by those of [s2]. *)
Theorem parsePath_concat (s1 s2 : ustring) :
  DependencyCacheVisualizer.parsePath (s1 ++ slash :: s2)
  = DependencyCacheVisualizer.parsePath s1
    ++ DependencyCacheVisualizer.parsePath s2.
Proof.
  unfold DependencyCacheVisualizer.parsePath.
  now rewrite split_app, List.filter_app.
Qed.

(** X3. Formatting the parsed input and parsing again gives the same
    path, except that [formatPath] takes a first segment ['root'] away:
    parsing normalises in one step, up to the 'root' convention. *)
Theorem parsePath_normalises (s : ustring) :
  DependencyCacheVisualizer.parsePath
    (Js.join [slash] (DependencyCacheVisualizer.parsePath s))
  = DependencyCacheVisualizer.parsePath s
  /\ DependencyCacheVisualizer.parsePath
       (DependencyCacheVisualizer.formatPath
          (Some (DependencyCacheVisualizer.parsePath s)))
     = match DependencyCacheVisualizer.parsePath s with
       | first :: rest =>
           if Js.str_eqb first (lit "root") then rest
           else DependencyCacheVisualizer.parsePath s
       | [] => []
       end.
Proof.
  pose proof (parsePath_segments s) as Hsegs.
  split; [now apply parsePath_join|].
  unfold DependencyCacheVisualizer.formatPath,
    DependencyCacheVisualizer.displayPath.
  destruct (DependencyCacheVisualizer.parsePath s) as [|first rest];
    [reflexivity|].
  destruct (Js.str_eqb first (lit "root")).
  - apply parsePath_join. now inversion Hsegs.
  - now apply parsePath_join.
Qed.

(** ** The rows of the tree view *)

Section TreeFacts.

Variable localeCompare : ustring -> ustring -> Z.

Implicit Types (node child : TreeView.SnapNode) (path names : list ustring).

(** Induction over a snapshot: a property that a node inherits from its
    children holds of every node. *)
Lemma SnapNode_children_ind (P : TreeView.SnapNode -> Prop) :
  (forall node,
      (forall child, child ∈ Js.Object_values (TreeView.children node) ->
                     P child) ->
      P node) ->
  forall node, P node.
Proof.
  intros step. fix IH 1. intros [ident hd kids]. apply step. simpl.
  induction kids as [|[k c] rest IHrest]; intros child Hin.
  - inversion Hin.
  - apply elem_of_cons in Hin as [->|Hin]; [apply IH | now apply IHrest].
Qed.

(** Sorting renderings by the child they render is rendering the sorted
    children. *)
Lemma Array_sort_tagged {A B} (cmp : A -> A -> Z) (f : A -> B) (l : list A) :
  Js.Array_sort (fun a b => cmp (fst a) (fst b)) (map (fun c => (c, f c)) l)
  = map (fun c => (c, f c)) (Js.Array_sort cmp l).
Proof.
  induction l as [|x l IH]; [reflexivity|]. simpl. rewrite IH.
  generalize (Js.Array_sort cmp l). intros sorted.
  induction sorted as [|y sorted IHs]; [reflexivity|]. simpl.
  destruct (cmp x y <=? 0)%Z; [reflexivity|]. now rewrite IHs.
Qed.

(** The rows in the source's order of evaluation: the children sorted,
    then each rendered. *)
Lemma TreeNode_rows_eq expandedNodes sel lvl path node :
  TreeView.TreeNode localeCompare expandedNodes sel lvl path node
  = if negb (Js.truthy (TreeView.identifier node)) then []
    else
      let own := TreeView.own_row expandedNodes sel lvl path node in
      own ::
        (if TreeView.hasChildren own && TreeView.isExpanded own then
           flat_map
             (TreeView.TreeNode localeCompare expandedNodes sel (S lvl)
                (TreeView.currentPath own))
             (TreeView.TreeNode_children localeCompare node)
         else []).
Proof.
  destruct node as [ident hd kids].
  cbn [TreeView.TreeNode TreeView.identifier].
  destruct (negb (Js.truthy ident)); [reflexivity|]. cbv zeta.
  f_equal.
  destruct (TreeView.hasChildren _ && TreeView.isExpanded _); [|reflexivity].
  unfold TreeView.TreeNode_children. cbn [TreeView.children].
  set (render := TreeView.TreeNode localeCompare expandedNodes sel (S lvl)
                   (TreeView.currentPath
                      (TreeView.own_row expandedNodes sel lvl path
                         (TreeView.mkSnapNode ident hd kids)))).
  clearbody render.
  match goal with
  | |- context [Js.Array_sort _ (?each kids)] =>
      assert (Heach : forall l,
                 each l = map (fun c => (c, render c)) (Js.Object_values l))
  end.
  { induction l as [|[k c] rest IHrest]; [reflexivity|].
    simpl. now rewrite <- IHrest. }
  rewrite Heach, (Array_sort_tagged (TreeView.byIdentifier localeCompare)).
  generalize (Js.Array_sort (TreeView.byIdentifier localeCompare)
                (Js.Object_values kids)).
  intros sorted. induction sorted as [|c sorted IHs]; [reflexivity|].
  simpl. now rewrite IHs.
Qed.

(** The children a node renders are those of its mapping. *)
Lemma TreeNode_children_elem node child :
  child ∈ TreeView.TreeNode_children localeCompare node <->
  child ∈ Js.Object_values (TreeView.children node).
Proof.
  unfold TreeView.TreeNode_children.
  now rewrite <- (Array_sort_perm (TreeView.byIdentifier localeCompare)).
Qed.

Lemma descends_names_not_nil node names target :
  TreeView.descends node names target -> names <> [].
Proof. destruct 1; discriminate. Qed.

(** Every row a node mounts is the row of a node below it, at the path
    of identifiers that leads there, under expanded rows only. *)
Lemma TreeNode_rows_invariant expandedNodes sel : forall node lvl path row,
  row ∈ TreeView.TreeNode localeCompare expandedNodes sel lvl path node ->
  exists names,
    TreeView.descends node names (TreeView.row_node row)
    /\ TreeView.currentPath row = path ++ names
    /\ TreeView.level row + 1 = lvl + length names
    /\ Forall (fun name => name <> []) names
    /\ (exists parentPath,
          row = TreeView.own_row expandedNodes sel (TreeView.level row)
                  parentPath (TreeView.row_node row))
    /\ (forall k, 0 < k < length names ->
          TreeView.expanded_in expandedNodes
            (Js.join [slash] (path ++ take k names)) = true).
Proof.
  induction node as [node IH] using SnapNode_children_ind.
  intros lvl path row Hrow. rewrite TreeNode_rows_eq in Hrow.
  destruct (Js.truthy (TreeView.identifier node)) eqn:Hid;
    [|now apply elem_of_nil in Hrow].
  cbn [negb] in Hrow. cbv zeta in Hrow.
  assert (Hname : TreeView.identifier node <> [])
    by (intros Hnil; rewrite Hnil in Hid; discriminate).
  apply elem_of_cons in Hrow as [->|Hrow].
  - exists [TreeView.identifier node]. cbn.
    split; [constructor|]. split; [reflexivity|]. split; [lia|].
    split; [now repeat constructor|]. split; [now exists path|].
    intros k Hk. lia.
  - destruct (TreeView.hasChildren _ && TreeView.isExpanded _) eqn:Hopen;
      [|now apply elem_of_nil in Hrow].
    apply andb_true_iff in Hopen as [_ Hopen].
    apply list_elem_of_In, in_flat_map in Hrow as [child [Hchild Hrow]].
    apply list_elem_of_In, TreeNode_children_elem in Hchild.
    apply list_elem_of_In in Hrow.
    destruct (IH child Hchild _ _ _ Hrow)
      as [names [Hdesc [Hpath [Hlevel [Hnames [Hown Hexp]]]]]].
    exists (TreeView.identifier node :: names).
    split; [now apply (TreeView.descends_child node child)|].
    split; [rewrite Hpath; cbn; now rewrite <- app_assoc|].
    split; [cbn [length]; lia|]. split; [now constructor|].
    split; [exact Hown|].
    intros k Hk. destruct k as [|k]; [lia|]. cbn [take].
    destruct k as [|k].
    + rewrite take_0. exact Hopen.
    + replace (path ++ TreeView.identifier node :: take (S k) names)
        with ((path ++ [TreeView.identifier node]) ++ take (S k) names)
        by now rewrite <- app_assoc.
      apply Hexp. cbn [length] in Hk. lia.
Qed.

(** A node none of whose rows is expanded shows its own row only. *)
Lemma TreeNode_collapsed expandedNodes sel lvl path node :
  TreeView.expanded_in expandedNodes
    (Js.join [slash] (path ++ [TreeView.identifier node])) = false ->
  TreeView.TreeNode localeCompare expandedNodes sel lvl path node
  = if Js.truthy (TreeView.identifier node)
    then [TreeView.own_row expandedNodes sel lvl path node]
    else [].
Proof.
  intros Hclosed. rewrite TreeNode_rows_eq.
  destruct (Js.truthy (TreeView.identifier node)); [|reflexivity].
  cbn [negb]. cbv zeta. cbn [TreeView.isExpanded TreeView.own_row].
  now rewrite Hclosed, andb_false_r.
Qed.

(** The rows of a node are at its level or deeper. *)
Lemma TreeNode_rows_level expandedNodes sel node lvl path row :
  row ∈ TreeView.TreeNode localeCompare expandedNodes sel lvl path node ->
  lvl <= TreeView.level row.
Proof.
  intros Hrow.
  destruct (TreeNode_rows_invariant _ _ _ _ _ _ Hrow)
    as [names [Hdesc [_ [Hlevel _]]]].
  apply descends_names_not_nil in Hdesc.
  destruct names; [congruence|]. cbn [length] in Hlevel. lia.
Qed.

Lemma filter_none {A} (f : A -> bool) (l : list A) :
  (forall x, x ∈ l -> f x = false) -> List.filter f l = [].
Proof.
  induction l as [|x l IH]; intros Hall; [reflexivity|]. cbn.
  rewrite (Hall x) by left. apply IH. intros y Hy. apply Hall. now right.
Qed.

Lemma filter_flat_map {A B} (f : B -> bool) (g : A -> list B) (l : list A) :
  List.filter f (flat_map g l) = flat_map (fun x => List.filter f (g x)) l.
Proof.
  induction l as [|x l IH]; [reflexivity|]. cbn.
  now rewrite List.filter_app, IH.
Qed.

(** Of the rows of a node, the one at its own level is its own row. *)
Lemma TreeNode_own_level expandedNodes sel node lvl path :
  List.filter (fun row => TreeView.level row =? lvl)
    (TreeView.TreeNode localeCompare expandedNodes sel lvl path node)
  = if Js.truthy (TreeView.identifier node)
    then [TreeView.own_row expandedNodes sel lvl path node]
    else [].
Proof.
  rewrite TreeNode_rows_eq.
  destruct (Js.truthy (TreeView.identifier node)); [|reflexivity].
  cbn [negb]. cbv zeta. cbn [List.filter TreeView.level TreeView.own_row].
  rewrite Nat.eqb_refl. f_equal.
  apply filter_none. intros row Hrow.
  destruct (_ && _); [|now apply elem_of_nil in Hrow].
  apply list_elem_of_In, in_flat_map in Hrow as [child [_ Hrow]].
  apply list_elem_of_In, TreeNode_rows_level in Hrow.
  apply Nat.eqb_neq. lia.
Qed.

(** The rows one level down, top to bottom, are the own rows of the
    rendered children that have an identifier, in the order rendered. *)
Lemma children_rows_in_order expandedNodes sel lvl path
  (shown : list TreeView.SnapNode) :
  map TreeView.row_node
    (List.filter (fun row => TreeView.level row =? lvl)
       (flat_map (TreeView.TreeNode localeCompare expandedNodes sel lvl path)
          shown))
  = List.filter (fun child => Js.truthy (TreeView.identifier child)) shown.
Proof.
  rewrite filter_flat_map.
  induction shown as [|child shown IH]; [reflexivity|].
  cbn [flat_map List.filter]. rewrite map_app, IH, TreeNode_own_level.
  now destruct (Js.truthy (TreeView.identifier child)).
Qed.

End TreeFacts.

(** C6. For a consistent [localeCompare], the children of every node
    are enumerated for display sorted ascending by identifier, whatever
    the order of the children mapping.  The list a node enumerates is
    ordered by the comparison of the identifiers and holds exactly the
    children of the mapping, and so does the list of any mapping with
    the same children in another order.  The rows [TreeNode] mounts
    are its own row followed, when it is expanded, by the rows of the
    children in that order, and [TreeView] mounts the rows of the
    root's children in that order: top to bottom, the rows one level
    below an expanded node are those of its children sorted by
    identifier. *)
Theorem children_shown_in_identifier_order
  (localeCompare : ustring -> ustring -> Z)
  (Htotal : forall a b,
      (localeCompare a b <= 0)%Z \/ (localeCompare b a <= 0)%Z)
  (Htrans : forall a b c,
      (localeCompare a b <= 0)%Z -> (localeCompare b c <= 0)%Z ->
      (localeCompare a c <= 0)%Z)
  (node : TreeView.SnapNode) (expandedNodes : list (ustring * bool))
  (selectedNodePathStr : option ustring)
  (selectedNodePath : option (list ustring))
  (level : nat) (path : list ustring) :
  let order := Js.not_after (TreeView.byIdentifier localeCompare) in
  let shown := TreeView.TreeNode_children localeCompare node in
  let own :=
    TreeView.own_row expandedNodes selectedNodePathStr level path node in
  let rows :=
    TreeView.TreeNode localeCompare expandedNodes selectedNodePathStr level
      path node in
  let named := fun child => Js.truthy (TreeView.identifier child) in
  StronglySorted order shown
  /\ Permutation (Js.Object_values (TreeView.children node)) shown
  /\ (forall other,
        Permutation (TreeView.children node) (TreeView.children other) ->
        StronglySorted order (TreeView.TreeNode_children localeCompare other)
        /\ Permutation shown
             (TreeView.TreeNode_children localeCompare other))
  /\ rows
     = (if negb (named node) then []
        else
          own ::
            (if TreeView.hasChildren own && TreeView.isExpanded own then
               flat_map
                 (TreeView.TreeNode localeCompare expandedNodes
                    selectedNodePathStr (S level) (TreeView.currentPath own))
                 shown
             else []))
  /\ (named node = true ->
      TreeView.hasChildren own && TreeView.isExpanded own = true ->
      map TreeView.row_node
        (List.filter (fun row => TreeView.level row =? S level) rows)
      = List.filter named shown)
  /\ TreeView.rootChildren localeCompare (Some node) = Some shown
  /\ TreeView.TreeView localeCompare (Some node) expandedNodes
       selectedNodePath
     = match shown with
       | [] => TreeView.CacheIsEmpty
       | _ :: _ =>
           TreeView.Rows
             (flat_map
                (TreeView.TreeNode localeCompare expandedNodes
                   (TreeView.selectedNodePathStr_of selectedNodePath) 0
                   [lit "root"])
                shown)
       end
  /\ (forall tops,
        TreeView.TreeView localeCompare (Some node) expandedNodes
          selectedNodePath = TreeView.Rows tops ->
        map TreeView.row_node
          (List.filter (fun row => TreeView.level row =? 0) tops)
        = List.filter named shown).
Proof.
  cbv zeta.
  assert (Hsorted : forall n,
             StronglySorted
               (Js.not_after (TreeView.byIdentifier localeCompare))
               (TreeView.TreeNode_children localeCompare n)).
  { intros n. apply Array_sort_sorted.
    - intros a b. apply Htotal.
    - intros a b c. apply Htrans. }
  assert (Hperm : forall n,
             Permutation (Js.Object_values (TreeView.children n))
               (TreeView.TreeNode_children localeCompare n)).
  { intros n. apply Array_sort_perm. }
  assert (Hview : TreeView.TreeView localeCompare (Some node) expandedNodes
                    selectedNodePath
                  = match TreeView.TreeNode_children localeCompare node with
                    | [] => TreeView.CacheIsEmpty
                    | _ :: _ =>
                        TreeView.Rows
                          (flat_map
                             (TreeView.TreeNode localeCompare expandedNodes
                                (TreeView.selectedNodePathStr_of
                                   selectedNodePath) 0 [lit "root"])
                             (TreeView.TreeNode_children localeCompare node))
                    end).
  { unfold TreeView.TreeView, TreeView.TreeNode_children.
    cbn [TreeView.rootChildren].
    now destruct (Js.Array_sort _ _). }
  split; [apply Hsorted|]. split; [apply Hperm|].
  split.
  { intros other Hsame. split; [apply Hsorted|].
    rewrite <- (Hperm node), <- (Hperm other).
    unfold Js.Object_values. now apply Permutation_map. }
  split; [apply TreeNode_rows_eq|].
  split.
  { intros Hnamed Hopen. rewrite TreeNode_rows_eq, Hnamed.
    cbn [negb]. cbv zeta. rewrite Hopen.
    cbn [List.filter TreeView.level TreeView.own_row].
    replace (level =? S level) with false
      by (symmetry; apply Nat.eqb_neq; lia).
    apply children_rows_in_order. }
  split; [reflexivity|]. split; [exact Hview|].
  intros tops Htops. rewrite Hview in Htops.
  destruct (TreeView.TreeNode_children localeCompare node)
    as [|first others] eqn:Hshown; [discriminate|].
  injection Htops as Htops. subst tops.
  exact (children_rows_in_order localeCompare expandedNodes _ 0
           [lit "root"] (first :: others)).
Qed.

Lemma children_shown_in_identifier_order_witness :
  let node :=
    {| TreeView.identifier := lit "users"; TreeView.has_data := false;
       TreeView.children :=
         [(lit "profile", example_leaf "profile");
          (lit "data", example_leaf "data"); (lit "1", example_leaf "1")] |} in
  let rows :=
    TreeView.TreeNode Js.code_unit_compare [(lit "root/users", true)] None
      0 [lit "root"] node in
  StronglySorted
    (Js.not_after (TreeView.byIdentifier Js.code_unit_compare))
    (TreeView.TreeNode_children Js.code_unit_compare node)
  /\ map TreeView.row_node
       (List.filter (fun row => TreeView.level row =? 1) rows)
     = [example_leaf "1"; example_leaf "data"; example_leaf "profile"].
Proof.
  cbv zeta.
  match goal with
  | |- context [TreeView.TreeNode ?lc ?e ?sel ?lvl ?path ?node] =>
      destruct (children_shown_in_identifier_order lc
                  code_unit_compare_total
                  (fun a b c => code_unit_compare_trans a b c)
                  node e sel None lvl path)
        as [Hsorted [_ [_ [_ [Hrows _]]]]]
  end.
  split; [exact Hsorted|].
  rewrite Hrows; reflexivity.
Defined.

(** X4. Every row the tree view shows is the row of a node of the
    snapshot: its path is ['root'] followed by the identifiers, none
    of them empty, that lead from a child of the root down to the node;
    its indentation level is the depth below the root's children; its
    path string is the path joined with ['/']; and every row above it
    on that path is expanded. *)
Theorem shown_rows_are_nodes (localeCompare : ustring -> ustring -> Z)
  (root : TreeView.SnapNode) (expandedNodes : list (ustring * bool))
  (selectedNodePath : option (list ustring)) (rows : list TreeView.Row) :
  TreeView.TreeView localeCompare (Some root) expandedNodes selectedNodePath
  = TreeView.Rows rows ->
  forall row, row ∈ rows ->
  exists child names,
    child ∈ Js.Object_values (TreeView.children root)
    /\ TreeView.descends child names (TreeView.row_node row)
    /\ TreeView.currentPath row = lit "root" :: names
    /\ S (TreeView.level row) = length names
    /\ Forall (fun name => name <> []) names
    /\ TreeView.currentPathStr row
       = Js.join [slash] (TreeView.currentPath row)
    /\ TreeView.isExpanded row
       = TreeView.expanded_in expandedNodes (TreeView.currentPathStr row)
    /\ (forall k, 0 < k < length names ->
          TreeView.expanded_in expandedNodes
            (Js.join [slash] (lit "root" :: take k names)) = true).
Proof.
  intros Hview row Hrow.
  assert (Hrows : rows
                  = flat_map
                      (TreeView.TreeNode localeCompare expandedNodes
                         (TreeView.selectedNodePathStr_of selectedNodePath)
                         0 [lit "root"])
                      (TreeView.TreeNode_children localeCompare root)).
  { unfold TreeView.TreeView in Hview. cbn [TreeView.rootChildren] in Hview.
    unfold TreeView.TreeNode_children.
    destruct (Js.Array_sort _ _) as [|first others]; [discriminate|].
    now injection Hview as <-. }
  subst rows. remember [lit "root"] as base eqn:Hbase.
  apply list_elem_of_In in Hrow.
  apply in_flat_map in Hrow as [child [Hchild Hrow]].
  apply list_elem_of_In in Hchild, Hrow.
  apply (TreeNode_children_elem localeCompare root) in Hchild.
  destruct (TreeNode_rows_invariant localeCompare _ _ _ _ _ _ Hrow)
    as [names [Hdesc [Hpath [Hlevel [Hnames [[parent Hown] Hexp]]]]]].
  subst base. exists child, names.
  split; [exact Hchild|]. split; [exact Hdesc|]. split; [exact Hpath|].
  split; [lia|]. split; [exact Hnames|].
  split; [rewrite Hown; reflexivity|]. split; [rewrite Hown; reflexivity|].
  exact Hexp.
Qed.

(** X5. With no node expanded, as when the component is first mounted,
    the tree view shows one collapsed row per child of the root that
    has an identifier, at level 0 and in the order of the identifiers;
    for a root without children it shows 'Cache is empty.' *)
Theorem collapsed_view_shows_root_children
  (localeCompare : ustring -> ustring -> Z) (root : TreeView.SnapNode)
  (expandedNodes : list (ustring * bool))
  (selectedNodePath : option (list ustring)) :
  (forall key, TreeView.expanded_in expandedNodes key = false) ->
  TreeView.TreeView localeCompare (Some root) expandedNodes selectedNodePath
  = match TreeView.TreeNode_children localeCompare root with
    | [] => TreeView.CacheIsEmpty
    | shown =>
        TreeView.Rows
          (map (TreeView.own_row expandedNodes
                  (TreeView.selectedNodePathStr_of selectedNodePath) 0
                  [lit "root"])
               (List.filter (fun n => Js.truthy (TreeView.identifier n))
                  shown))
    end.
Proof.
  intros Hclosed. unfold TreeView.TreeView. cbn [TreeView.rootChildren].
  change (Js.Array_sort (TreeView.byIdentifier localeCompare)
            (Js.Object_values (TreeView.children root)))
    with (TreeView.TreeNode_children localeCompare root).
  destruct (TreeView.TreeNode_children localeCompare root)
    as [|first others]; [reflexivity|].
  f_equal. generalize (first :: others). intros shown.
  induction shown as [|n shown IH]; [reflexivity|].
  cbn [flat_map List.filter]. rewrite IH.
  rewrite TreeNode_collapsed by apply Hclosed.
  now destruct (Js.truthy (TreeView.identifier n)).
Qed.

Lemma shown_rows_are_nodes_witness :
  let expandedNodes := [(lit "root/users", true)] in
  let row :=
    TreeView.own_row expandedNodes (Some (lit "")) 1
      [lit "root"; lit "users"] (example_leaf "2") in
  exists child names,
    child ∈ Js.Object_values (TreeView.children example_snapshot)
    /\ TreeView.descends child names (TreeView.row_node row)
    /\ TreeView.currentPath row = lit "root" :: names
    /\ S (TreeView.level row) = length names.
Proof.
  cbv zeta.
  pose (rows :=
          match TreeView.TreeView Js.code_unit_compare (Some example_snapshot)
                  [(lit "root/users", true)] (Some []) with
          | TreeView.Rows rows => rows
          | _ => []
          end).
  destruct (shown_rows_are_nodes Js.code_unit_compare example_snapshot
              [(lit "root/users", true)] (Some []) rows
              ltac:(vm_compute; reflexivity)
              (TreeView.own_row [(lit "root/users", true)] (Some (lit "")) 1
                 [lit "root"; lit "users"] (example_leaf "2"))
              ltac:(vm_compute; do 3 right; left))
    as [child [names [Hchild [Hdesc [Hpath [Hlevel _]]]]]].
  exists child, names. repeat split; assumption.
Defined.

Lemma collapsed_view_shows_root_children_witness :
  TreeView.TreeView Js.code_unit_compare (Some example_snapshot) [] (Some [])
  = TreeView.Rows
      (map (TreeView.own_row [] (Some (lit "")) 0 [lit "root"])
         [example_leaf "config";
          {| TreeView.identifier := lit "users"; TreeView.has_data := false;
             TreeView.children :=
               [(lit "2", example_leaf "2"); (lit "1", example_leaf "1")] |}]).
Proof.
  rewrite (collapsed_view_shows_root_children Js.code_unit_compare
             example_snapshot [] (Some [])); [reflexivity|].
  intros key. reflexivity.
Defined.

(** ** Expanding, selecting and clicking *)

Section ObjectFacts.

Context {A : Type}.

Implicit Types (o : list (ustring * A)) (k : ustring) (v : A).

Lemma str_eqb_refl k : Js.str_eqb k k = true.
Proof. unfold Js.str_eqb. now apply bool_decide_eq_true_2. Qed.

Lemma str_eqb_neq k k' : k <> k' -> Js.str_eqb k k' = false.
Proof. intros Hne. unfold Js.str_eqb. now apply bool_decide_eq_false_2. Qed.

Lemma str_eqb_true k k' : Js.str_eqb k k' = true -> k = k'.
Proof. unfold Js.str_eqb. apply bool_decide_eq_true_1. Qed.

Lemma str_eqb_false k k' : Js.str_eqb k k' = false -> k <> k'.
Proof. unfold Js.str_eqb. apply bool_decide_eq_false_1. Qed.

Lemma get_set_same o k v : Js.get (Js.set o k v) k = Some v.
Proof.
  induction o as [|[k' v'] o IH]; cbn [Js.set Js.get].
  - now rewrite str_eqb_refl.
  - destruct (Js.str_eqb k' k) eqn:Hk; cbn [Js.get]; now rewrite Hk.
Qed.

Lemma get_set_other o k k' v : k' <> k -> Js.get (Js.set o k v) k' = Js.get o k'.
Proof.
  intros Hne. induction o as [|[k0 v0] o IH]; cbn [Js.set Js.get].
  - rewrite str_eqb_neq; congruence.
  - destruct (Js.str_eqb k0 k) eqn:Hk; cbn [Js.get].
    + apply str_eqb_true in Hk. subst k0.
      rewrite !str_eqb_neq; congruence.
    + now rewrite IH.
Qed.

(** A key is assigned in place: the keys of the copy are those of the
    object, with the new key last where it was missing, none twice. *)
Lemma set_keys o k v :
  Js.Object_keys (Js.set o k v)
  = if bool_decide (k ∈ Js.Object_keys o) then Js.Object_keys o
    else Js.Object_keys o ++ [k].
Proof.
  induction o as [|[k0 v0] o IH]; cbn [Js.set Js.Object_keys map fst].
  - rewrite bool_decide_eq_false_2; [reflexivity | apply not_elem_of_nil].
  - destruct (Js.str_eqb k0 k) eqn:Hk; cbn [Js.Object_keys map fst].
    + apply str_eqb_true in Hk. subst k0.
      rewrite bool_decide_eq_true_2; [reflexivity | left].
    + apply str_eqb_false in Hk. fold (Js.Object_keys (Js.set o k v)).
      fold (Js.Object_keys o). rewrite IH. case_bool_decide as Hin.
      * rewrite bool_decide_eq_true_2; [reflexivity | now right].
      * rewrite bool_decide_eq_false_2; [reflexivity|].
        rewrite elem_of_cons. intros [->|Hin']; [now apply Hk | now apply Hin].
Qed.

End ObjectFacts.


(** X6. Toggling a row, whose node id is the path string of ['root']
    and the identifiers down to it, flips its own expansion and that
    of no row with another path string; toggling it again gives every
    row the expansion it had; the selection is not touched, and the
    expansion map gets no second entry for a key. *)
Theorem toggle_flips_one_node (names : list ustring)
  (t : DependencyCacheVisualizer.TreeState) :
  names <> [] ->
  let row_key (path : list ustring) := Js.join [slash] (lit "root" :: path) in
  let t' := DependencyCacheVisualizer.handleToggleNode (row_key names) t in
  TreeView.expanded_in (DependencyCacheVisualizer.expandedNodes t')
    (row_key names)
  = negb (TreeView.expanded_in
            (DependencyCacheVisualizer.expandedNodes t) (row_key names))
  /\ (forall others, others <> [] -> row_key others <> row_key names ->
        TreeView.expanded_in (DependencyCacheVisualizer.expandedNodes t')
          (row_key others)
        = TreeView.expanded_in
            (DependencyCacheVisualizer.expandedNodes t) (row_key others))
  /\ (forall others, others <> [] ->
        TreeView.expanded_in
          (DependencyCacheVisualizer.expandedNodes
             (DependencyCacheVisualizer.handleToggleNode (row_key names) t'))
          (row_key others)
        = TreeView.expanded_in
            (DependencyCacheVisualizer.expandedNodes t) (row_key others))
  /\ DependencyCacheVisualizer.selectedPath t'
     = DependencyCacheVisualizer.selectedPath t
  /\ DependencyCacheVisualizer.selectedNode t'
     = DependencyCacheVisualizer.selectedNode t
  /\ (NoDup (Js.Object_keys (DependencyCacheVisualizer.expandedNodes t)) ->
      NoDup (Js.Object_keys (DependencyCacheVisualizer.expandedNodes t'))).
Proof.
  intros _. cbv beta zeta.
  generalize (Js.join [slash] (lit "root" :: names)). intros nodeId.
  unfold DependencyCacheVisualizer.handleToggleNode.
  cbn [DependencyCacheVisualizer.expandedNodes
       DependencyCacheVisualizer.selectedPath
       DependencyCacheVisualizer.selectedNode].
  unfold TreeView.expanded_in.
  split; [now rewrite get_set_same|].
  split; [intros others _ Hne; now rewrite get_set_other|].
  split.
  { intros others _.
    destruct (decide (Js.join [slash] (lit "root" :: others) = nodeId))
      as [Heq|Hne].
    - rewrite Heq, !get_set_same.
      destruct (Js.get _ nodeId) as [[]|]; reflexivity.
    - now rewrite !get_set_other. }
  split; [reflexivity|]. split; [reflexivity|].
  intros Hnd. rewrite set_keys. case_bool_decide as Hin; [exact Hnd|].
  apply NoDup_app. split; [exact Hnd|]. split; [|apply NoDup_singleton].
  intros key Hkey Hlast. apply list_elem_of_singleton in Hlast. now subst.
Qed.

Lemma toggle_flips_one_node_witness :
  let t :=
    {| DependencyCacheVisualizer.expandedNodes := [(lit "root/users", true)];
       DependencyCacheVisualizer.selectedNode := None;
       DependencyCacheVisualizer.selectedPath := [] |} in
  TreeView.expanded_in
    (DependencyCacheVisualizer.expandedNodes
       (DependencyCacheVisualizer.handleToggleNode
          (Js.join [slash] [lit "root"; lit "config"]) t))
    (Js.join [slash] [lit "root"; lit "users"]) = true
  /\ NoDup (Js.Object_keys
              (DependencyCacheVisualizer.expandedNodes
                 (DependencyCacheVisualizer.handleToggleNode
                    (Js.join [slash] [lit "root"; lit "config"]) t))).
Proof.
  cbv zeta.
  match goal with
  | |- context [DependencyCacheVisualizer.handleToggleNode _ ?t] =>
      destruct (toggle_flips_one_node [lit "config"] t)
        as [_ [Hother [_ [_ [_ Hnd]]]]]; [discriminate|]
  end.
  split.
  - rewrite (Hother [lit "users"]);
      [reflexivity | discriminate | vm_compute; discriminate].
  - apply Hnd. apply (bool_decide_unpack _). vm_compute. exact I.
Defined.





(** ** The sorted table of the statistics panel *)

Section TableFacts.

Variable member_text : ustring -> ustring.

Implicit Types (a b c : StatsPanel.Row) (col : StatsPanel.Column)
  (u v : StatsPanel.Cell).

#[local] Abbreviation cell_lt := (StatsPanel.cell_lt member_text).
#[local] Abbreviation field_lt := (StatsPanel.field_lt member_text).
#[local] Abbreviation getComparator :=
  (StatsPanel.getComparator member_text).

Lemma code_unit_compare_opp (s : ustring) : forall t,
  Js.code_unit_compare t s = (- Js.code_unit_compare s t)%Z.
Proof.
  induction s as [|cs s IH]; intros [|ct t]; simpl; try reflexivity.
  rewrite (N.compare_antisym cs ct).
  destruct (cs ?= ct)%N; simpl; [apply IH | reflexivity | reflexivity].
Qed.

Lemma str_lt_asym (s t : ustring) :
  Js.str_lt s t = true -> Js.str_lt t s = false.
Proof.
  unfold Js.str_lt. rewrite (code_unit_compare_opp s t).
  intros Hlt. apply Z.ltb_lt in Hlt. apply Z.ltb_ge. lia.
Qed.

Lemma str_lt_negtrans (s t u : ustring) :
  Js.str_lt s t = false -> Js.str_lt t u = false -> Js.str_lt s u = false.
Proof.
  unfold Js.str_lt. intros Hst Htu. apply Z.ltb_ge in Hst, Htu.
  apply Z.ltb_ge.
  rewrite (code_unit_compare_opp u s).
  rewrite (code_unit_compare_opp t s) in Hst.
  rewrite (code_unit_compare_opp u t) in Htu.
  pose proof (code_unit_compare_trans u t s). lia.
Qed.

(** [<] on cells is asymmetric, whatever the cells hold. *)
Lemma cell_lt_asym u v : cell_lt u v = true -> cell_lt v u = false.
Proof.
  destruct u as [n|p], v as [m|q]; cbn [StatsPanel.cell_lt];
    try reflexivity; [|apply str_lt_asym].
  intros Hlt. apply Z.ltb_lt in Hlt. apply Z.ltb_ge. lia.
Qed.

(** Between numbers, 'not smaller' is transitive. *)
Lemma cell_lt_negtrans n m k :
  cell_lt (StatsPanel.count n) (StatsPanel.count m) = false ->
  cell_lt (StatsPanel.count m) (StatsPanel.count k) = false ->
  cell_lt (StatsPanel.count n) (StatsPanel.count k) = false.
Proof.
  cbn [StatsPanel.cell_lt]. intros Hnm Hmk. apply Z.ltb_ge in Hnm, Hmk.
  apply Z.ltb_ge. lia.
Qed.

Lemma field_lt_asym col a b :
  field_lt col a b = true -> field_lt col b a = false.
Proof.
  destruct col; cbn [StatsPanel.field_lt];
    [apply str_lt_asym | apply cell_lt_asym ..].
Qed.

(** The rows whose column [col] is ordered: every row by its path, a
    row by a count when its five cells are numbers. *)
#[local] Abbreviation ordered col a :=
  (col = StatsPanel.col_path
   \/ exists n1 n2 n3 n4 n5,
        StatsPanel.checked a = StatsPanel.count n1
        /\ StatsPanel.hit a = StatsPanel.count n2
        /\ StatsPanel.missed a = StatsPanel.count n3
        /\ StatsPanel.added a = StatsPanel.count n4
        /\ StatsPanel.invalidated a = StatsPanel.count n5).

Lemma field_lt_negtrans col a b c :
  ordered col a -> ordered col b -> ordered col c ->
  field_lt col a b = false -> field_lt col b c = false ->
  field_lt col a c = false.
Proof.
  intros [->|(a1 & a2 & a3 & a4 & a5 & Ha1 & Ha2 & Ha3 & Ha4 & Ha5)];
    [intros _ _; apply str_lt_negtrans|].
  intros [->|(b1 & b2 & b3 & b4 & b5 & Hb1 & Hb2 & Hb3 & Hb4 & Hb5)];
    [intros _; apply str_lt_negtrans|].
  intros [->|(c1 & c2 & c3 & c4 & c5 & Hc1 & Hc2 & Hc3 & Hc4 & Hc5)];
    [apply str_lt_negtrans|].
  destruct col; cbn [StatsPanel.field_lt];
    [ apply str_lt_negtrans
    | rewrite Ha1, Hb1, Hc1 | rewrite Ha2, Hb2, Hc2
    | rewrite Ha3, Hb3, Hc3 | rewrite Ha4, Hb4, Hc4
    | rewrite Ha5, Hb5, Hc5 ]; apply cell_lt_negtrans.
Qed.

(** What the comparator of each direction says of two rows. *)
Lemma getComparator_not_after order col a b :
  Js.not_after (getComparator order col) a b <->
  match order with
  | StatsPanel.desc => field_lt col a b = false
  | StatsPanel.asc => field_lt col b a = false
  end.
Proof.
  unfold Js.not_after, StatsPanel.getComparator,
    StatsPanel.descendingComparator.
  pose proof (field_lt_asym col a b) as Hab.
  pose proof (field_lt_asym col b a) as Hba.
  destruct order, (StatsPanel.field_lt member_text col a b),
    (StatsPanel.field_lt member_text col b a); split; intros Hle;
    try reflexivity; try lia; try (now discriminate (Hab eq_refl));
    try discriminate.
Qed.

Lemma getComparator_total order col a b :
  Js.not_after (getComparator order col) a b
  \/ Js.not_after (getComparator order col) b a.
Proof.
  rewrite !getComparator_not_after.
  pose proof (field_lt_asym col a b) as Hab.
  destruct order, (StatsPanel.field_lt member_text col a b); auto.
Qed.

Lemma getComparator_trans order col a b c :
  ordered col a -> ordered col b -> ordered col c ->
  Js.not_after (getComparator order col) a b ->
  Js.not_after (getComparator order col) b c ->
  Js.not_after (getComparator order col) a c.
Proof.
  intros Ha Hb Hc. rewrite !getComparator_not_after.
  destruct order; intros Hab Hbc.
  - now apply (field_lt_negtrans col c b a).
  - now apply (field_lt_negtrans col a b c).
Qed.

Lemma StronglySorted_iff {A} (R S : A -> A -> Prop) (l : list A) :
  (forall x y, R x y <-> S x y) -> StronglySorted R l -> StronglySorted S l.
Proof.
  intros Hrs. induction 1 as [|x l Hsorted IH Hx]; constructor;
    [exact IH|].
  eapply Forall_impl; [exact Hx|]. intros y. apply Hrs.
Qed.

(** The rows of a table whose paths are no inherited names hold
    numbers. *)
Lemma tableRows_ordered col
  (checked hit missed added invalidated : StatsPanel.Counts) a :
  a ∈ StatsPanel.tableRows checked hit missed added invalidated ->
  StatsPanel.path a ∉ Js.Object_prototype_names ->
  ordered col a.
Proof.
  intros Hrow Hplain. right.
  destruct (tableRows_cells _ _ _ _ _ a Hrow) as (-> & -> & -> & -> & ->).
  destruct (count_or_0_plain checked _ Hplain) as [n1 ->].
  destruct (count_or_0_plain hit _ Hplain) as [n2 ->].
  destruct (count_or_0_plain missed _ Hplain) as [n3 ->].
  destruct (count_or_0_plain added _ Hplain) as [n4 ->].
  destruct (count_or_0_plain invalidated _ Hplain) as [n5 ->].
  now exists n1, n2, n3, n4, n5.
Qed.

(** Sorting such a table, or any table by the path. *)
Lemma sorted_rows order col
  (checked hit missed added invalidated : StatsPanel.Counts) :
  let rows := StatsPanel.tableRows checked hit missed added invalidated in
  col = StatsPanel.col_path
  \/ Forall (fun row => StatsPanel.path row ∉ Js.Object_prototype_names)
       rows ->
  StronglySorted (Js.not_after (getComparator order col))
    (Js.Array_sort (getComparator order col) rows).
Proof.
  cbv zeta. intros Hplain.
  apply (Array_sort_sorted_on (getComparator order col)
           (fun a => ordered col a)).
  - intros a b _ _. apply getComparator_total.
  - intros a b c. apply getComparator_trans.
  - destruct Hplain as [->|Hplain]; apply Forall_forall.
    + intros a _. now left.
    + intros a Hrow. rewrite Forall_forall in Hplain.
      now apply (tableRows_ordered col checked hit missed added invalidated);
        [|apply Hplain].
Qed.

End TableFacts.

(** X9. The table is shown sorted by the chosen column when the rows
    can be ordered by it: for a stats object whose table is computed
    (no per-path field is [null]), sorted by the path, or by a count
    when no path is the name of a member that objects inherit, the
    sorted rows are the rows of the table, each once, and of two rows
    the later one is never greater in the column when the order is
    descending, never smaller when it is ascending, by number for the
    counts and by code units for the path. *)
Theorem sortedTableData_sorted (member_text : ustring -> ustring)
  (stats : option StatsPanel.Stats) (rows : list StatsPanel.Row)
  (order : StatsPanel.Order) (orderBy : StatsPanel.Column)
  (Hrows : StatsPanel.pathTableData stats = Some rows)
  (Hordered :
     orderBy = StatsPanel.col_path
     \/ Forall (fun row => StatsPanel.path row ∉ Js.Object_prototype_names)
          rows) :
  exists sorted,
    StatsPanel.sortedTableData member_text stats order orderBy = Some sorted
    /\ Permutation rows sorted
    /\ StronglySorted
         (fun earlier later =>
            match order with
            | StatsPanel.desc =>
                StatsPanel.field_lt member_text orderBy earlier later = false
            | StatsPanel.asc =>
                StatsPanel.field_lt member_text orderBy later earlier = false
            end)
         sorted.
Proof.
  unfold StatsPanel.sortedTableData. rewrite Hrows.
  eexists. split; [reflexivity|]. split; [apply Array_sort_perm|].
  apply (StronglySorted_iff
           (Js.not_after (StatsPanel.getComparator member_text order orderBy))).
  - intros a b. apply getComparator_not_after.
  - apply pathTableData_Some in Hrows
      as (c & h & m & a & i & _ & _ & _ & _ & _ & ->).
    now apply sorted_rows.
Qed.

Lemma sortedTableData_sorted_witness :
  let stats :=
    Some {| StatsPanel.gets := Some 3%Z; StatsPanel.hits := Some 1%Z;
            StatsPanel.misses := Some 2%Z; StatsPanel.adds := Some 1%Z;
            StatsPanel.invalidations := None;
            StatsPanel.paths_checked :=
              StatsPanel.field_mapping
                [(lit "users/2", 1%Z); (lit "users/1", 2%Z)];
            StatsPanel.paths_hit :=
              StatsPanel.field_mapping [(lit "users/1", 1%Z)];
            StatsPanel.paths_missed :=
              StatsPanel.field_mapping
                [(lit "users/1", 1%Z); (lit "users/2", 1%Z)];
            StatsPanel.paths_added :=
              StatsPanel.field_mapping [(lit "users/1", 1%Z)];
            StatsPanel.paths_invalidated := StatsPanel.field_missing |} in
  exists sorted,
    StatsPanel.sortedTableData (fun name => name) stats StatsPanel.desc
      StatsPanel.col_checked = Some sorted
    /\ map StatsPanel.path sorted = [lit "users/1"; lit "users/2"].
Proof.
  cbv zeta.
  match goal with
  | |- exists sorted,
         StatsPanel.sortedTableData ?text ?stats ?order ?col = _ /\ _ =>
      destruct (sortedTableData_sorted text stats
                  (StatsPanel.tableRows
                     [(lit "users/2", 1%Z); (lit "users/1", 2%Z)]
                     [(lit "users/1", 1%Z)]
                     [(lit "users/1", 1%Z); (lit "users/2", 1%Z)]
                     [(lit "users/1", 1%Z)] [])
                  order col)
        as [sorted [Hsorted _]];
        [ reflexivity
        | right; apply (bool_decide_unpack _); vm_compute; exact I
        | exists sorted; split; [exact Hsorted|] ]
  end.
  vm_compute in Hsorted. injection Hsorted as <-. reflexivity.
Defined.

(** X10. A click on a column header sorts by that column, ascending
    unless the table was already ascending by it; so the first click on
    another column gives ascending order, and clicking the same header
    again reverses the direction each time. *)
Theorem header_click_cycles (property : StatsPanel.Column)
  (s : StatsPanel.Order * StatsPanel.Column) :
  let s1 := StatsPanel.handleRequestSort property s in
  let s2 := StatsPanel.handleRequestSort property s1 in
  snd s1 = property
  /\ (fst s1 = StatsPanel.desc <-> s = (StatsPanel.asc, property))
  /\ (snd s <> property -> fst s1 = StatsPanel.asc)
  /\ snd s2 = property /\ fst s2 <> fst s1
  /\ StatsPanel.handleRequestSort property s2 = s1.
Proof.
  destruct s as [order orderBy]. cbv zeta.
  destruct order, orderBy, property; cbn;
    repeat split; try congruence; try discriminate; intros H;
    try discriminate; try congruence.
Qed.

(** X11. The placeholder 'No path data recorded yet.' is shown exactly
    when there is a stats object and each of its five per-path fields
    is missing or a mapping without entry; without stats object it is
    not shown ('Loading stats...' is). *)
Theorem no_path_data_placeholder (stats : option StatsPanel.Stats) :
  (StatsPanel.showsNoPathData stats = true <->
   (exists s, stats = Some s)
   /\ StatsPanel.mapping StatsPanel.paths_checked stats = Some []
   /\ StatsPanel.mapping StatsPanel.paths_hit stats = Some []
   /\ StatsPanel.mapping StatsPanel.paths_missed stats = Some []
   /\ StatsPanel.mapping StatsPanel.paths_added stats = Some []
   /\ StatsPanel.mapping StatsPanel.paths_invalidated stats = Some [])
  /\ StatsPanel.showsNoPathData None = false.
Proof.
  split; [|reflexivity].
  destruct stats as [s|].
  2:{ split; [discriminate|]. intros [[s Hs] _]. discriminate. }
  unfold StatsPanel.showsNoPathData.
  destruct (StatsPanel.pathTableData (Some s)) as [rows|] eqn:Hrows.
  - apply pathTableData_Some in Hrows
      as (c & h & m & a & i & -> & -> & -> & -> & -> & ->).
    rewrite Nat.eqb_eq, <- (length_map StatsPanel.path), tableRows_paths.
    destruct (allPaths_spec c h m a i) as [_ Hmem].
    split.
    + intros Hlen. apply nil_length_inv in Hlen.
      assert (Hnone : forall (o : StatsPanel.Counts),
                 (forall k, k ∈ Js.Object_keys o ->
                            k ∈ StatsPanel.allPaths c h m a i) ->
                 o = []).
      { intros [|[k v] o] Hin; [reflexivity|].
        specialize (Hin k (list_elem_of_here _ _)). rewrite Hlen in Hin.
        now apply elem_of_nil in Hin. }
      split; [now exists s|].
      repeat split; f_equal; apply Hnone; intros k Hk; apply Hmem; tauto.
    + intros [_ (Hc & Hh & Hm & Ha & Hi)].
      injection Hc as ->. injection Hh as ->. injection Hm as ->.
      injection Ha as ->. injection Hi as ->. reflexivity.
  - split; [discriminate|].
    intros [_ (Hc & Hh & Hm & Ha & Hi)].
    unfold StatsPanel.pathTableData in Hrows.
    rewrite Hc, Hh, Hm, Ha, Hi in Hrows. discriminate.
Qed.

Lemma header_click_cycles_witness :
  fst (StatsPanel.handleRequestSort StatsPanel.col_path StatsPanel.initialSort)
  = StatsPanel.asc.
Proof.
  destruct (header_click_cycles StatsPanel.col_path StatsPanel.initialSort)
    as [_ [_ [Hfirst _]]].
  apply Hfirst. discriminate.
Defined.

(** ** The response handling of the API client *)

Example decimal_examples :
  Js.decimal 404 = lit "404" /\ Js.decimal 0 = lit "0"
  /\ Js.decimal 204 = lit "204".
Proof. repeat split. Qed.

(** X12. A response that is not [ok] never fulfils the promise of
    [fetchApi]: the request is issued and the promise rejects.  The
    message is the [detail] of the JSON error body when that is a
    non-empty string, 'HTTP error! status: N' when the body is not
    JSON, and 'Request failed with status N' when the JSON object has
    no [detail]. *)
Theorem failed_response_rejects (ToString : JsValue -> ustring)
  (TypeError_message : ustring)
  (server : api.Net -> api.Request -> Settled api.Response)
  (endpoint : ustring) (meth : option ustring) (payload : option JsValue)
  (sent : api.Net) (response : api.Response) :
  let r := {| api.url := lit "/api" ++ endpoint; api.method := meth;
              api.body := payload |} in
  server sent r = Fulfilled response ->
  api.ok response = false ->
  exists message,
    api.fetchApi (api.settle_by ToString TypeError_message server)
      endpoint meth payload sent
    = (Rejected message, sent ++ [r])
    /\ (forall props d,
          api.json response = Normal (JObj props) ->
          Js.get props (lit "detail") = Some (JStr d) -> d <> [] ->
          message = d)
    /\ (forall m,
          api.json response = Thrown m ->
          message = lit "HTTP error! status: "
                    ++ Js.decimal (api.status response))
    /\ (forall props,
          api.json response = Normal (JObj props) ->
          Js.get props (lit "detail") = None ->
          message = lit "Request failed with status "
                    ++ Js.decimal (api.status response)).
Proof.
  cbv zeta. intros Hserver Hok.
  unfold api.fetchApi, api.settle_by, api.API_BASE_URL.
  rewrite Hserver. unfold api.handle_response. rewrite Hok. cbn [negb].
  destruct (api.json response) as [errorData|m] eqn:Hjson.
  - destruct (api.detail_of TypeError_message errorData) as [detail|m]
      eqn:Hdetail.
    + eexists. split; [reflexivity|].
      split; [|split].
      * intros props d [= ->] Hget Hd. cbn [api.detail_of] in Hdetail.
        rewrite Hget in Hdetail. injection Hdetail as <-.
        destruct d; [congruence | reflexivity].
      * intros m. discriminate.
      * intros props [= ->] Hget. cbn [api.detail_of] in Hdetail.
        rewrite Hget in Hdetail. injection Hdetail as <-. reflexivity.
    + eexists. split; [reflexivity|].
      destruct errorData; try discriminate;
        (split; [intros props d; discriminate
                | split; [intros m'; discriminate
                         | intros props; discriminate]]).
  - eexists. split; [reflexivity|].
    split; [intros props d; discriminate|].
    split; [|intros props; discriminate].
    intros m' _. cbn [api.detail_of Js.get].
    rewrite str_eqb_refl. reflexivity.
Qed.

(** X13. For an [ok] response [fetchApi] resolves to [null] when the
    status is 204, whatever the body, and otherwise to the parsed JSON
    body, rejecting when the body does not parse; a failure of [fetch]
    itself is passed on.  In every case exactly the one request is
    issued, after those issued before. *)
Theorem ok_response_resolves (ToString : JsValue -> ustring)
  (TypeError_message : ustring)
  (server : api.Net -> api.Request -> Settled api.Response)
  (endpoint : ustring) (meth : option ustring) (payload : option JsValue)
  (sent : api.Net) :
  let r := {| api.url := lit "/api" ++ endpoint; api.method := meth;
              api.body := payload |} in
  let result :=
    api.fetchApi (api.settle_by ToString TypeError_message server)
      endpoint meth payload sent in
  snd result = sent ++ [r]
  /\ (forall m, server sent r = Rejected m -> fst result = Rejected m)
  /\ (forall response,
        server sent r = Fulfilled response -> api.ok response = true ->
        (api.status response = 204%Z -> fst result = Fulfilled JNull)
        /\ (api.status response <> 204%Z ->
            fst result = match api.json response with
                         | Normal data => Fulfilled data
                         | Thrown m => Rejected m
                         end)).
Proof.
  cbv zeta. unfold api.fetchApi, api.settle_by, api.API_BASE_URL.
  cbn [fst snd]. split; [reflexivity|]. split.
  - intros m ->. reflexivity.
  - intros response -> Hok. unfold api.handle_response. rewrite Hok.
    cbn [negb]. split.
    + intros ->. reflexivity.
    + intros Hstatus. apply Z.eqb_neq in Hstatus. now rewrite Hstatus.
Qed.

Lemma failed_response_rejects_witness :
  let server : api.Net -> api.Request -> Settled api.Response :=
    fun _ _ =>
      Fulfilled {| api.ok := false; api.status := 404%Z;
                   api.json :=
                     Normal (JObj [(lit "detail",
                                    JStr (lit "Invalid path"))]) |} in
  fst (api.fetchApi (api.settle_by (fun _ => lit "") (lit "") server)
         (lit "/get-data") api.POST None [])
  = Rejected (lit "Invalid path").
Proof.
  cbv zeta.
  match goal with
  | |- fst (api.fetchApi (api.settle_by ?ts ?te ?server) ?ep ?m ?p ?sent)
       = _ =>
      destruct (failed_response_rejects ts te server ep m p sent
                  {| api.ok := false; api.status := 404%Z;
                     api.json :=
                       Normal (JObj [(lit "detail",
                                      JStr (lit "Invalid path"))]) |}
                  eq_refl eq_refl)
        as [message [Hfetch [Hdetail _]]]
  end.
  rewrite Hfetch. cbn [fst]. f_equal.
  apply (Hdetail [(lit "detail", JStr (lit "Invalid path"))]);
    [reflexivity | reflexivity | discriminate].
Defined.

Lemma ok_response_resolves_witness :
  let server : api.Net -> api.Request -> Settled api.Response :=
    fun _ _ =>
      Fulfilled {| api.ok := true; api.status := 204%Z;
                   api.json := Thrown (lit "Unexpected end of JSON input") |} in
  fst (api.fetchApi (api.settle_by (fun _ => lit "") (lit "") server)
         (lit "/reset-stats") api.POST None [])
  = Fulfilled JNull.
Proof.
  cbv zeta.
  match goal with
  | |- fst (api.fetchApi (api.settle_by ?ts ?te ?server) ?ep ?m ?p ?sent)
       = _ =>
      destruct (ok_response_resolves ts te server ep m p sent)
        as [_ [_ Hok]]
  end.
  cbv zeta in Hok.
  destruct (Hok {| api.ok := true; api.status := 204%Z;
                   api.json := Thrown (lit "Unexpected end of JSON input") |}
              eq_refl eq_refl) as [Hnull _].
  apply Hnull. reflexivity.
Defined.

(** ** Fetching and the operations *)

Section HandlerFacts.

Import DependencyCacheVisualizer.

Variable settle : api.Net -> api.Request -> Settled JsValue.
Variable JSON_parse : ustring -> option JsValue.
Variable statsFirst : api.Net -> bool.

(** The two requests of a refresh. *)
Lemma fetchBoth_requests (sent : api.Net) :
  snd (fetchBoth settle statsFirst sent)
  = sent ++ [ {| api.url := lit "/api/tree"; api.method := None;
                 api.body := None |};
              {| api.url := lit "/api/stats"; api.method := None;
                 api.body := None |} ].
Proof.
  unfold fetchBoth, api.getTree, api.getStats, api.returning, api.fetchApi.
  cbn [fst snd].
  repeat match goal with
         | |- context [await ?p] => destruct p; cbn [await]
         end;
    cbn [snd]; now rewrite <- app_assoc.
Qed.

(** What a refresh leaves alone. *)
Lemma fetchData_frame (isInitial : bool) (u : Ui) (sent : api.Net) :
  let u' := fst (fetchData settle statsFirst isInitial (u, sent)) in
  opPathInput u' = opPathInput u /\ opDataInput u' = opDataInput u
  /\ lastOperationResult u' = lastOperationResult u
  /\ (exists more, toasts u' = toasts u ++ more)
  /\ loading_operation (loading u')
     = (if isInitial then false else loading_operation (loading u)).
Proof.
  cbv zeta. unfold fetchData.
  destruct (fetchBoth settle statsFirst sent) as [[[treeData statsData]|m] sent'].
  - destruct isInitial; cbn; repeat split; exists []; now rewrite app_nil_r.
  - unfold stopAutoRefresh.
    destruct isInitial, (refreshIntervalId u) eqn:Hid; cbn; rewrite ?Hid;
      cbn; repeat split; eexists; reflexivity.
Qed.

Lemma fetchData_requests (isInitial : bool) (u : Ui) (sent : api.Net) :
  snd (fetchData settle statsFirst isInitial (u, sent))
  = sent ++ [ {| api.url := lit "/api/tree"; api.method := None;
                 api.body := None |};
              {| api.url := lit "/api/stats"; api.method := None;
                 api.body := None |} ].
Proof.
  unfold fetchData. rewrite <- fetchBoth_requests.
  now destruct (fetchBoth settle statsFirst sent).
Qed.

End HandlerFacts.

(** X14. A refresh issues the two requests [GET /api/tree] and
    [GET /api/stats], in this order and both in any case, and ends with
    the tree and stats loading flags off.  When both succeed the tree
    and the statistics shown are the ones received and the error is
    cleared; when one fails the tree and statistics shown stay as they
    were, the error reads 'Failed to fetch data: ' and the message of
    the failure, of the one that came first when both fail, one error
    toast is added, and a running auto-refresh is switched off. *)
Theorem fetchData_refreshes
  (settle : api.Net -> api.Request -> Settled JsValue)
  (statsFirst : api.Net -> bool) (isInitial : bool)
  (u : DependencyCacheVisualizer.Ui) (sent : api.Net) :
  let rTree := {| api.url := lit "/api/tree"; api.method := None;
                  api.body := None |} in
  let rStats := {| api.url := lit "/api/stats"; api.method := None;
                   api.body := None |} in
  let result :=
    DependencyCacheVisualizer.fetchData settle statsFirst isInitial (u, sent) in
  let u' := fst result in
  let failed (m : ustring) :=
    DependencyCacheVisualizer.tree u' = DependencyCacheVisualizer.tree u
    /\ DependencyCacheVisualizer.stats u' = DependencyCacheVisualizer.stats u
    /\ DependencyCacheVisualizer.error u'
       = Some (lit "Failed to fetch data: " ++ m)
    /\ DependencyCacheVisualizer.toasts u'
       = DependencyCacheVisualizer.toasts u
         ++ [DependencyCacheVisualizer.toast_error
               (lit "Failed to fetch data: " ++ m)]
    /\ DependencyCacheVisualizer.refreshIntervalId u' = None
    /\ DependencyCacheVisualizer.autoRefreshInterval u'
       = match DependencyCacheVisualizer.refreshIntervalId u with
         | Some _ => 0%Z
         | None => DependencyCacheVisualizer.autoRefreshInterval u
         end in
  snd result = sent ++ [rTree; rStats]
  /\ DependencyCacheVisualizer.loading_tree
       (DependencyCacheVisualizer.loading u') = false
  /\ DependencyCacheVisualizer.loading_stats
       (DependencyCacheVisualizer.loading u') = false
  /\ match settle sent rTree, settle (sent ++ [rTree]) rStats with
     | Fulfilled treeData, Fulfilled statsData =>
         DependencyCacheVisualizer.tree u' = Some treeData
         /\ DependencyCacheVisualizer.stats u' = Some statsData
         /\ DependencyCacheVisualizer.error u' = None
         /\ DependencyCacheVisualizer.toasts u'
            = DependencyCacheVisualizer.toasts u
         /\ DependencyCacheVisualizer.autoRefreshInterval u'
            = DependencyCacheVisualizer.autoRefreshInterval u
     | Rejected m, Fulfilled _ => failed m
     | Fulfilled _, Rejected m => failed m
     | Rejected mTree, Rejected mStats =>
         failed (if statsFirst sent then mStats else mTree)
     end.
Proof.
  cbv zeta. split; [apply fetchData_requests|].
  unfold DependencyCacheVisualizer.fetchData,
    DependencyCacheVisualizer.fetchBoth, api.getTree, api.getStats,
    api.returning, api.fetchApi, api.API_BASE_URL.
  change (lit "/api" ++ lit "/tree") with (lit "/api/tree").
  change (lit "/api" ++ lit "/stats") with (lit "/api/stats").
  destruct (settle sent _) as [treeData|m1];
    destruct (settle (sent ++ _) _) as [statsData|m2]; cbn [await];
    unfold DependencyCacheVisualizer.stopAutoRefresh;
    destruct isInitial,
      (DependencyCacheVisualizer.refreshIntervalId u) eqn:Hid;
    cbn; rewrite ?Hid; cbn; repeat split; rewrite ?Hid; reflexivity.
Qed.

(** X15. An operation on a path that parses to at least one segment
    sends one [POST] with the segments as [path].  When the server
    answers, the answer is returned and recorded as the successful last
    operation, the success toast is shown, and a refresh follows (three
    requests in all).  When the request fails, nothing else is sent,
    the failure and its message are recorded and shown as 'Operation
    failed: ' and the message, and the tree, the statistics and the
    data input stay as they were.  Either way the operation flag is off
    at the end and the path input is untouched. *)
Theorem path_operation_outcome
  (settle : api.Net -> api.Request -> Settled JsValue)
  (JSON_parse : ustring -> option JsValue)
  (statsFirst : api.Net -> bool)
  (operationFn : DependencyCacheVisualizer.ApiFunction)
  (successMessage opType : ustring) (clearDataInput : bool)
  (u : DependencyCacheVisualizer.Ui) (sent : api.Net)
  (segment : ustring) (others : list ustring) :
  operationFn = DependencyCacheVisualizer.api_getData
  \/ operationFn = DependencyCacheVisualizer.api_invalidatePath ->
  DependencyCacheVisualizer.parsePath
    (DependencyCacheVisualizer.opPathInput u) = segment :: others ->
  let r :=
    {| api.url :=
         match operationFn with
         | DependencyCacheVisualizer.api_getData => lit "/api/get-data"
         | _ => lit "/api/invalidate"
         end;
       api.method := Some (lit "POST");
       api.body :=
         Some (JObj [(lit "path", JArr (JStr <$> segment :: others))]) |} in
  let rTree := {| api.url := lit "/api/tree"; api.method := None;
                  api.body := None |} in
  let rStats := {| api.url := lit "/api/stats"; api.method := None;
                   api.body := None |} in
  let result :=
    DependencyCacheVisualizer.executeOperation settle JSON_parse statsFirst operationFn
      successMessage opType true clearDataInput (u, sent) in
  let u' := fst (snd result) in
  match settle sent r with
  | Fulfilled response =>
      fst result = response
      /\ snd (snd result) = sent ++ [r; rTree; rStats]
      /\ DependencyCacheVisualizer.lastOperationResult u'
         = Some {| DependencyCacheVisualizer.r_type := opType;
                   DependencyCacheVisualizer.r_success := true;
                   DependencyCacheVisualizer.r_path :=
                     DependencyCacheVisualizer.opPathInput u;
                   DependencyCacheVisualizer.r_response := Some response;
                   DependencyCacheVisualizer.r_error := None |}
      /\ (exists more,
            DependencyCacheVisualizer.toasts u'
            = DependencyCacheVisualizer.toasts u
              ++ DependencyCacheVisualizer.toast_success successMessage
                 :: more)
      /\ DependencyCacheVisualizer.opDataInput u'
         = (if clearDataInput then []
            else DependencyCacheVisualizer.opDataInput u)
  | Rejected m =>
      fst result = JNull
      /\ snd (snd result) = sent ++ [r]
      /\ DependencyCacheVisualizer.lastOperationResult u'
         = Some {| DependencyCacheVisualizer.r_type := opType;
                   DependencyCacheVisualizer.r_success := false;
                   DependencyCacheVisualizer.r_path :=
                     DependencyCacheVisualizer.opPathInput u;
                   DependencyCacheVisualizer.r_response := None;
                   DependencyCacheVisualizer.r_error := Some m |}
      /\ DependencyCacheVisualizer.error u'
         = Some (lit "Operation failed: " ++ m)
      /\ DependencyCacheVisualizer.toasts u'
         = DependencyCacheVisualizer.toasts u
           ++ [DependencyCacheVisualizer.toast_error
                 (lit "Operation failed: " ++ m)]
      /\ DependencyCacheVisualizer.tree u' = DependencyCacheVisualizer.tree u
      /\ DependencyCacheVisualizer.stats u'
         = DependencyCacheVisualizer.stats u
      /\ DependencyCacheVisualizer.opDataInput u'
         = DependencyCacheVisualizer.opDataInput u
  end
  /\ DependencyCacheVisualizer.loading_operation
       (DependencyCacheVisualizer.loading u') = false
  /\ DependencyCacheVisualizer.opPathInput u'
     = DependencyCacheVisualizer.opPathInput u.
Proof.
  intros Hfn Hpath. cbv zeta.
  unfold DependencyCacheVisualizer.executeOperation,
    DependencyCacheVisualizer.executeOperation_try.
  cbn [DependencyCacheVisualizer.setLoading
       DependencyCacheVisualizer.setError
       DependencyCacheVisualizer.setLastOperationResult
       DependencyCacheVisualizer.opPathInput
       DependencyCacheVisualizer.opDataInput].
  rewrite Hpath. cbn [length Nat.eqb andb].
  destruct Hfn as [-> | ->];
    cbn [DependencyCacheVisualizer.is_addData
         DependencyCacheVisualizer.call nth];
    unfold api.getData, api.invalidatePath, api.returning, api.fetchApi,
      api.API_BASE_URL, api.POST;
    cbn [Array_isArray negb];
    change (lit "/api" ++ lit "/get-data") with (lit "/api/get-data");
    change (lit "/api" ++ lit "/invalidate") with (lit "/api/invalidate");
    (destruct (settle sent _) as [response|m]; cbn [await];
     [ destruct clearDataInput;
       match goal with
       | |- context [DependencyCacheVisualizer.fetchData settle statsFirst false
                       (?u2, ?s1)] =>
           pose proof (fetchData_frame settle statsFirst false u2 s1) as Hframe;
           pose proof (fetchData_requests settle statsFirst false u2 s1) as Hreq;
           destruct (DependencyCacheVisualizer.fetchData settle statsFirst false
                       (u2, s1)) as [u3 sent3]
       end;
       cbv zeta in Hframe; cbn [fst snd] in Hframe, Hreq;
       destruct Hframe as [Hp [Hd [Hl [[more Ht] Hlo]]]];
       cbn; rewrite Hp, Hd, Hl, Ht, Hreq; cbn;
       repeat split; try reflexivity;
       [ now rewrite <- app_assoc
       | exists more; now rewrite <- app_assoc
       | now rewrite <- app_assoc
       | exists more; now rewrite <- app_assoc ]
     | cbn; repeat split; reflexivity ]).
Qed.

Section OperationFacts.

Import DependencyCacheVisualizer.

Variable settle : api.Net -> api.Request -> Settled JsValue.
Variable JSON_parse : ustring -> option JsValue.
Variable statsFirst : api.Net -> bool.

(** Where the [try] block completes, the answer has been recorded as
    the successful last operation. *)
Lemma executeOperation_try_success (operationFn : ApiFunction)
  (successMessage opType : ustring) (requiresPath clearDataInput : bool)
  (currentPathStr : ustring) (w w1 : Ui * api.Net) (response : JsValue) :
  executeOperation_try settle JSON_parse statsFirst operationFn successMessage opType
    requiresPath clearDataInput currentPathStr w = (Normal response, w1) ->
  lastOperationResult (fst w1)
  = Some {| r_type := opType; r_success := true; r_path := currentPathStr;
            r_response := Some response; r_error := None |}.
Proof.
  unfold executeOperation_try. destruct w as [u sent].
  destruct (requiresPath && _); [discriminate|].
  destruct (if is_addData operationFn then _ else _)
    as [[promise|m] sent1]; [|discriminate].
  destruct (await promise) as [answer|m]; [|discriminate].
  match goal with
  | |- context [fetchData settle statsFirst false (?u2, ?s1)] =>
      pose proof (fetchData_frame settle statsFirst false u2 s1) as Hframe;
      destruct (fetchData settle statsFirst false (u2, s1)) as [u3 sent3]
  end.
  cbv zeta in Hframe. cbn [fst] in Hframe.
  destruct Hframe as [_ [_ [Hlast _]]].
  intros [= <- <-]. cbn [fst]. rewrite Hlast.
  now destruct clearDataInput.
Qed.

Lemma setLastOperationResult_same (u : Ui) (r : option OperationResult) :
  lastOperationResult u = r -> setLastOperationResult r u = u.
Proof. destruct u. cbn. now intros ->. Qed.

(** The requests of an operation: none, its own, or its own and the
    two of the refresh. *)
Lemma executeOperation_requests (operationFn : ApiFunction)
  (successMessage opType : ustring) (requiresPath clearDataInput : bool)
  (u : Ui) (sent : api.Net) :
  exists new,
    snd (snd (executeOperation settle JSON_parse statsFirst operationFn successMessage
                opType requiresPath clearDataInput (u, sent)))
    = sent ++ new
    /\ let endpoint :=
         match operationFn with
         | api_getData => lit "/api/get-data"
         | api_addData => lit "/api/add-data"
         | api_invalidatePath => lit "/api/invalidate"
         | api_resetStats => lit "/api/reset-stats"
         end in
       (map api.url new = []
        \/ map api.url new = [endpoint]
        \/ map api.url new = [endpoint; lit "/api/tree"; lit "/api/stats"]).
Proof.
  cbv zeta. unfold executeOperation, executeOperation_try.
  cbn [setLoading setError setLastOperationResult opPathInput opDataInput].
  destruct (requiresPath && _).
  { exists []. cbn. split; [now rewrite app_nil_r | now left]. }
  assert (Hcall : forall args,
             exists new,
               snd (call settle operationFn args sent) = sent ++ new
               /\ (match fst (call settle operationFn args sent) with
                   | Normal _ =>
                       map api.url new
                       = [match operationFn with
                          | api_getData => lit "/api/get-data"
                          | api_addData => lit "/api/add-data"
                          | api_invalidatePath => lit "/api/invalidate"
                          | api_resetStats => lit "/api/reset-stats"
                          end]
                   | Thrown _ => new = []
                   end)).
  { intros args. unfold call, api.getData, api.addData, api.invalidatePath,
      api.resetStats, api.returning, api.fetchApi.
    destruct operationFn;
      try (destruct (negb (Array_isArray (nth 0 args JUndefined))));
      cbn [fst snd]; eexists; split;
      try reflexivity; try (symmetry; apply app_nil_r); reflexivity. }
  match goal with
  | |- context [if is_addData operationFn then ?a else ?b] =>
      assert (Hc : exists args,
                 (if is_addData operationFn then a else b)
                 = call settle operationFn args sent)
        by (destruct (is_addData operationFn), requiresPath; eexists;
            reflexivity);
      destruct Hc as [args ->]
  end.
  destruct (Hcall args) as [new [Hsent Hurl]].
  destruct (call settle operationFn args sent) as [[promise|m] sent1].
  - cbn [fst snd] in Hsent, Hurl. subst sent1.
    destruct (await promise) as [answer|m].
    + match goal with
      | |- context [fetchData settle statsFirst false (?u2, ?s1)] =>
          pose proof (fetchData_requests settle statsFirst false u2 s1) as Hreq;
          destruct (fetchData settle statsFirst false (u2, s1)) as [u3 sent3]
      end.
      cbn [snd] in Hreq. subst sent3. cbn [snd].
      eexists. split; [now rewrite <- app_assoc|].
      right; right. rewrite map_app, Hurl. reflexivity.
    + cbn [snd]. exists new. split; [reflexivity|]. right; now left.
  - cbn [fst snd] in Hsent, Hurl. subst sent1 new. cbn [snd].
    exists []. split; [reflexivity | now left].
Qed.

End OperationFacts.

(** X16. The update [handleGetData] makes after [executeOperation] is
    redundant: the handler leaves the state in which
    [executeOperation] left it, since a truthy result is always the
    answer already recorded as the successful last operation, under the
    same path input. *)
Theorem handleGetData_update_is_redundant
  (settle : api.Net -> api.Request -> Settled JsValue)
  (JSON_parse : ustring -> option JsValue)
  (statsFirst : api.Net -> bool)
  (w : DependencyCacheVisualizer.Ui * api.Net) :
  DependencyCacheVisualizer.handleGetData settle JSON_parse statsFirst w
  = snd (DependencyCacheVisualizer.executeOperation settle JSON_parse statsFirst
           DependencyCacheVisualizer.api_getData (lit "Data retrieved")
           (lit "GET_DATA") true false w).
Proof.
  unfold DependencyCacheVisualizer.handleGetData,
    DependencyCacheVisualizer.executeOperation.
  destruct w as [u sent].
  cbn [DependencyCacheVisualizer.setLoading
       DependencyCacheVisualizer.setError
       DependencyCacheVisualizer.setLastOperationResult
       DependencyCacheVisualizer.opPathInput fst].
  destruct (DependencyCacheVisualizer.executeOperation_try _ _ _ _ _ _ _ _ _ _)
    as [[response|m] [u1 sent1]] eqn:Htry; [|reflexivity].
  apply executeOperation_try_success in Htry. cbn [fst] in Htry.
  cbn [snd]. destruct (to_boolean response); [|reflexivity].
  f_equal. apply setLastOperationResult_same.
  destruct u1. exact Htry.
Qed.

Lemma path_operation_outcome_witness :
  let u :=
    {| DependencyCacheVisualizer.tree := None;
       DependencyCacheVisualizer.stats := None;
       DependencyCacheVisualizer.loading :=
         {| DependencyCacheVisualizer.loading_tree := false;
            DependencyCacheVisualizer.loading_stats := false;
            DependencyCacheVisualizer.loading_operation := false |};
       DependencyCacheVisualizer.error := None;
       DependencyCacheVisualizer.opPathInput := lit "users/1";
       DependencyCacheVisualizer.opDataInput := lit "";
       DependencyCacheVisualizer.lastOperationResult := None;
       DependencyCacheVisualizer.autoRefreshInterval := 0%Z;
       DependencyCacheVisualizer.refreshIntervalId := None;
       DependencyCacheVisualizer.toasts := [] |} in
  map api.url
    (snd (snd (DependencyCacheVisualizer.executeOperation
                 (fun _ _ => Rejected (lit "Failed to fetch"))
                 (fun _ => None) (fun _ => false) DependencyCacheVisualizer.api_invalidatePath
                 (lit "Path invalidated") (lit "INVALIDATE") true false
                 (u, []))))
  = [lit "/api/invalidate"].
Proof.
  cbv zeta.
  match goal with
  | |- context [DependencyCacheVisualizer.executeOperation ?settle ?parse ?race
                  ?fn ?msg ?ty true ?clear (?u, ?sent)] =>
      pose proof (path_operation_outcome settle parse race fn msg ty clear u sent
                    (lit "users") [lit "1"] (or_intror eq_refl) eq_refl)
        as Houtcome
  end.
  cbv zeta in Houtcome. cbn [negb] in Houtcome.
  destruct Houtcome as [[_ [Hsent _]] _].
  rewrite Hsent. reflexivity.
Defined.

(** X17. Whatever the inputs and the answers, a handler keeps the
    requests issued before it and adds either nothing, or one request
    to its own endpoint, or that request followed by the two of the
    refresh, to [/api/tree] and [/api/stats]: the URLs requested by
    'Get', 'Add/Update', 'Invalidate' and 'Reset Stats' are these and
    no others, and none sends its operation twice. *)
Theorem handlers_request_schedule
  (settle : api.Net -> api.Request -> Settled JsValue)
  (JSON_parse : ustring -> option JsValue)
  (statsFirst : api.Net -> bool)
  (u : DependencyCacheVisualizer.Ui) (sent : api.Net) :
  let schedule (handler : DependencyCacheVisualizer.Ui * api.Net ->
                          DependencyCacheVisualizer.Ui * api.Net)
               (endpoint : ustring) :=
    exists new,
      snd (handler (u, sent)) = sent ++ new
      /\ (map api.url new = []
          \/ map api.url new = [endpoint]
          \/ map api.url new
             = [endpoint; lit "/api/tree"; lit "/api/stats"]) in
  schedule (DependencyCacheVisualizer.handleGetData settle JSON_parse statsFirst)
    (lit "/api/get-data")
  /\ schedule (DependencyCacheVisualizer.handleAddData settle JSON_parse statsFirst)
       (lit "/api/add-data")
  /\ schedule (DependencyCacheVisualizer.handleInvalidate settle JSON_parse statsFirst)
       (lit "/api/invalidate")
  /\ schedule (DependencyCacheVisualizer.handleResetStats settle JSON_parse statsFirst)
       (lit "/api/reset-stats").
Proof.
  cbv zeta. split; [|split; [|split]].
  - destruct (executeOperation_requests settle JSON_parse statsFirst
                DependencyCacheVisualizer.api_getData (lit "Data retrieved")
                (lit "GET_DATA") true false u sent) as [new [Hsent Hurl]].
    exists new. split; [|exact Hurl].
    unfold DependencyCacheVisualizer.handleGetData.
    destruct (DependencyCacheVisualizer.executeOperation _ _ _ _ _ _ _ _ _)
      as [result [u' sent']].
    cbn [snd] in Hsent. now destruct (to_boolean result).
  - apply (executeOperation_requests settle JSON_parse statsFirst
             DependencyCacheVisualizer.api_addData).
  - apply (executeOperation_requests settle JSON_parse statsFirst
             DependencyCacheVisualizer.api_invalidatePath).
  - apply (executeOperation_requests settle JSON_parse statsFirst
             DependencyCacheVisualizer.api_resetStats).
Qed.

(** X18. 'Add/Update' sends the data input parsed as JSON, or, where it
    does not parse, as the string typed, together with the path
    segments; the data input is cleared when the server answers and
    kept when the request fails. *)
Theorem handleAddData_sends_parsed_input
  (settle : api.Net -> api.Request -> Settled JsValue)
  (JSON_parse : ustring -> option JsValue)
  (statsFirst : api.Net -> bool)
  (u : DependencyCacheVisualizer.Ui) (sent : api.Net)
  (segment : ustring) (others : list ustring) :
  DependencyCacheVisualizer.parsePath
    (DependencyCacheVisualizer.opPathInput u) = segment :: others ->
  let data :=
    match JSON_parse (DependencyCacheVisualizer.opDataInput u) with
    | Some v => v
    | None => JStr (DependencyCacheVisualizer.opDataInput u)
    end in
  let r :=
    {| api.url := lit "/api/add-data"; api.method := Some (lit "POST");
       api.body :=
         Some (JObj [(lit "path", JArr (JStr <$> segment :: others));
                     (lit "data", data)]) |} in
  let result :=
    DependencyCacheVisualizer.handleAddData settle JSON_parse statsFirst (u, sent) in
  match settle sent r with
  | Fulfilled response =>
      snd result
      = sent ++ [r;
                 {| api.url := lit "/api/tree"; api.method := None;
                    api.body := None |};
                 {| api.url := lit "/api/stats"; api.method := None;
                    api.body := None |}]
      /\ DependencyCacheVisualizer.opDataInput (fst result) = []
      /\ DependencyCacheVisualizer.lastOperationResult (fst result)
         = Some {| DependencyCacheVisualizer.r_type := lit "ADD_DATA";
                   DependencyCacheVisualizer.r_success := true;
                   DependencyCacheVisualizer.r_path :=
                     DependencyCacheVisualizer.opPathInput u;
                   DependencyCacheVisualizer.r_response := Some response;
                   DependencyCacheVisualizer.r_error := None |}
  | Rejected m =>
      snd result = sent ++ [r]
      /\ DependencyCacheVisualizer.opDataInput (fst result)
         = DependencyCacheVisualizer.opDataInput u
      /\ DependencyCacheVisualizer.error (fst result)
         = Some (lit "Operation failed: " ++ m)
  end.
Proof.
  intros Hpath. cbv zeta.
  unfold DependencyCacheVisualizer.handleAddData,
    DependencyCacheVisualizer.executeOperation,
    DependencyCacheVisualizer.executeOperation_try.
  cbn [DependencyCacheVisualizer.setLoading
       DependencyCacheVisualizer.setError
       DependencyCacheVisualizer.setLastOperationResult
       DependencyCacheVisualizer.opPathInput
       DependencyCacheVisualizer.opDataInput].
  rewrite Hpath. cbn [length Nat.eqb andb].
  cbn [DependencyCacheVisualizer.is_addData
       DependencyCacheVisualizer.call nth].
  unfold api.addData, api.returning, api.fetchApi, api.API_BASE_URL,
    api.POST.
  cbn [Array_isArray negb].
  change (lit "/api" ++ lit "/add-data") with (lit "/api/add-data").
  destruct (settle sent _) as [response|m]; cbn [await].
  - match goal with
    | |- context [DependencyCacheVisualizer.fetchData settle statsFirst false
                    (?u2, ?s1)] =>
        pose proof (fetchData_frame settle statsFirst false u2 s1) as Hframe;
        pose proof (fetchData_requests settle statsFirst false u2 s1) as Hreq;
        destruct (DependencyCacheVisualizer.fetchData settle statsFirst false
                    (u2, s1)) as [u3 sent3]
    end.
    cbv zeta in Hframe. cbn [fst snd] in Hframe, Hreq.
    destruct Hframe as [_ [Hd [Hl _]]].
    cbn. rewrite Hd, Hl, Hreq. cbn.
    repeat split. now rewrite <- app_assoc.
  - cbn. repeat split.
Qed.

Lemma handleAddData_sends_parsed_input_witness :
  let u :=
    {| DependencyCacheVisualizer.tree := None;
       DependencyCacheVisualizer.stats := None;
       DependencyCacheVisualizer.loading :=
         {| DependencyCacheVisualizer.loading_tree := false;
            DependencyCacheVisualizer.loading_stats := false;
            DependencyCacheVisualizer.loading_operation := false |};
       DependencyCacheVisualizer.error := None;
       DependencyCacheVisualizer.opPathInput := lit "users/1";
       DependencyCacheVisualizer.opDataInput := lit "not json";
       DependencyCacheVisualizer.lastOperationResult := None;
       DependencyCacheVisualizer.autoRefreshInterval := 0%Z;
       DependencyCacheVisualizer.refreshIntervalId := None;
       DependencyCacheVisualizer.toasts := [] |} in
  let result :=
    DependencyCacheVisualizer.handleAddData (fun _ _ => Fulfilled JNull)
      (fun _ => None) (fun _ => false) (u, []) in
  DependencyCacheVisualizer.opDataInput (fst result) = []
  /\ option_map api.body (hd_error (snd result))
     = Some (Some (JObj [(lit "path", JArr [JStr (lit "users");
                                           JStr (lit "1")]);
                         (lit "data", JStr (lit "not json"))])).
Proof.
  cbv zeta.
  match goal with
  | |- context [DependencyCacheVisualizer.handleAddData ?settle ?parse ?race
                  (?u, ?sent)] =>
      pose proof (handleAddData_sends_parsed_input settle parse race u sent
                    (lit "users") [lit "1"] eq_refl) as Hadd
  end.
  cbv zeta in Hadd. destruct Hadd as [Hsent [Hdata _]].
  split; [exact Hdata|]. rewrite Hsent. reflexivity.
Defined.

(** X19. 'Reset Stats' does not look at the path input: whatever it
    holds, the empty string included, the [POST /api/reset-stats]
    request, without body, is sent; an answer is recorded as success
    and followed by the refresh, a failure is recorded with its
    message and followed by nothing. *)
Theorem handleResetStats_needs_no_path
  (settle : api.Net -> api.Request -> Settled JsValue)
  (JSON_parse : ustring -> option JsValue)
  (statsFirst : api.Net -> bool)
  (u : DependencyCacheVisualizer.Ui) (sent : api.Net) :
  let r := {| api.url := lit "/api/reset-stats";
              api.method := Some (lit "POST"); api.body := None |} in
  let result :=
    DependencyCacheVisualizer.handleResetStats settle JSON_parse statsFirst (u, sent) in
  match settle sent r with
  | Fulfilled response =>
      snd result
      = sent ++ [r;
                 {| api.url := lit "/api/tree"; api.method := None;
                    api.body := None |};
                 {| api.url := lit "/api/stats"; api.method := None;
                    api.body := None |}]
      /\ DependencyCacheVisualizer.lastOperationResult (fst result)
         = Some {| DependencyCacheVisualizer.r_type := lit "RESET_STATS";
                   DependencyCacheVisualizer.r_success := true;
                   DependencyCacheVisualizer.r_path :=
                     DependencyCacheVisualizer.opPathInput u;
                   DependencyCacheVisualizer.r_response := Some response;
                   DependencyCacheVisualizer.r_error := None |}
  | Rejected m =>
      snd result = sent ++ [r]
      /\ DependencyCacheVisualizer.lastOperationResult (fst result)
         = Some {| DependencyCacheVisualizer.r_type := lit "RESET_STATS";
                   DependencyCacheVisualizer.r_success := false;
                   DependencyCacheVisualizer.r_path :=
                     DependencyCacheVisualizer.opPathInput u;
                   DependencyCacheVisualizer.r_response := None;
                   DependencyCacheVisualizer.r_error := Some m |}
      /\ DependencyCacheVisualizer.error (fst result)
         = Some (lit "Operation failed: " ++ m)
  end.
Proof.
  cbv zeta.
  unfold DependencyCacheVisualizer.handleResetStats,
    DependencyCacheVisualizer.executeOperation,
    DependencyCacheVisualizer.executeOperation_try.
  cbn [DependencyCacheVisualizer.setLoading
       DependencyCacheVisualizer.setError
       DependencyCacheVisualizer.setLastOperationResult
       DependencyCacheVisualizer.opPathInput
       DependencyCacheVisualizer.opDataInput andb
       DependencyCacheVisualizer.is_addData
       DependencyCacheVisualizer.call].
  unfold api.resetStats, api.returning, api.fetchApi, api.API_BASE_URL,
    api.POST.
  change (lit "/api" ++ lit "/reset-stats") with (lit "/api/reset-stats").
  destruct (settle sent _) as [response|m]; cbn [await].
  - match goal with
    | |- context [DependencyCacheVisualizer.fetchData settle statsFirst false
                    (?u2, ?s1)] =>
        pose proof (fetchData_frame settle statsFirst false u2 s1) as Hframe;
        pose proof (fetchData_requests settle statsFirst false u2 s1) as Hreq;
        destruct (DependencyCacheVisualizer.fetchData settle statsFirst false
                    (u2, s1)) as [u3 sent3]
    end.
    cbv zeta in Hframe. cbn [fst snd] in Hframe, Hreq.
    destruct Hframe as [_ [_ [Hl _]]].
    cbn. rewrite Hl, Hreq. cbn. split; [now rewrite <- app_assoc|].
    reflexivity.
  - cbn. repeat split.
Qed.

(** X20. The error detail of the server reaches the user verbatim: when
    the server answers an 'Invalidate' with a response that is not [ok]
    and whose JSON body has a non-empty string [detail], the error
    shown is 'Operation failed: ' followed by that detail, the failed
    last operation carries the detail, no refresh is sent, and the tree
    and statistics shown stay. *)
Theorem server_error_detail_is_shown (ToString : JsValue -> ustring)
  (TypeError_message : ustring)
  (server : api.Net -> api.Request -> Settled api.Response)
  (JSON_parse : ustring -> option JsValue)
  (statsFirst : api.Net -> bool)
  (u : DependencyCacheVisualizer.Ui) (sent : api.Net)
  (segment : ustring) (others : list ustring)
  (response : api.Response) (props : list (ustring * JsValue))
  (detail : ustring) :
  DependencyCacheVisualizer.parsePath
    (DependencyCacheVisualizer.opPathInput u) = segment :: others ->
  let r :=
    {| api.url := lit "/api/invalidate"; api.method := Some (lit "POST");
       api.body :=
         Some (JObj [(lit "path", JArr (JStr <$> segment :: others))]) |} in
  server sent r = Fulfilled response ->
  api.ok response = false ->
  api.json response = Normal (JObj props) ->
  Js.get props (lit "detail") = Some (JStr detail) ->
  detail <> [] ->
  let result :=
    DependencyCacheVisualizer.handleInvalidate
      (api.settle_by ToString TypeError_message server) JSON_parse statsFirst (u, sent) in
  DependencyCacheVisualizer.error (fst result)
  = Some (lit "Operation failed: " ++ detail)
  /\ DependencyCacheVisualizer.lastOperationResult (fst result)
     = Some {| DependencyCacheVisualizer.r_type := lit "INVALIDATE";
               DependencyCacheVisualizer.r_success := false;
               DependencyCacheVisualizer.r_path :=
                 DependencyCacheVisualizer.opPathInput u;
               DependencyCacheVisualizer.r_response := None;
               DependencyCacheVisualizer.r_error := Some detail |}
  /\ snd result = sent ++ [r]
  /\ DependencyCacheVisualizer.tree (fst result)
     = DependencyCacheVisualizer.tree u
  /\ DependencyCacheVisualizer.stats (fst result)
     = DependencyCacheVisualizer.stats u.
Proof.
  intros Hpath r Hserver Hok Hjson Hdetail Hne. subst r. cbv zeta.
  unfold DependencyCacheVisualizer.handleInvalidate,
    DependencyCacheVisualizer.executeOperation,
    DependencyCacheVisualizer.executeOperation_try.
  cbn [DependencyCacheVisualizer.setLoading
       DependencyCacheVisualizer.setError
       DependencyCacheVisualizer.setLastOperationResult
       DependencyCacheVisualizer.opPathInput
       DependencyCacheVisualizer.opDataInput].
  rewrite Hpath. cbn [length Nat.eqb andb].
  cbn [DependencyCacheVisualizer.is_addData
       DependencyCacheVisualizer.call nth].
  unfold api.invalidatePath, api.returning, api.fetchApi, api.API_BASE_URL,
    api.POST, api.settle_by.
  cbn [Array_isArray negb].
  change (lit "/api" ++ lit "/invalidate") with (lit "/api/invalidate").
  rewrite Hserver. unfold api.handle_response.
  rewrite Hok, Hjson. cbn [negb api.detail_of]. rewrite Hdetail.
  destruct detail as [|c detail]; [congruence|].
  cbn. repeat split.
Qed.

Lemma server_error_detail_is_shown_witness :
  let u :=
    {| DependencyCacheVisualizer.tree := None;
       DependencyCacheVisualizer.stats := None;
       DependencyCacheVisualizer.loading :=
         {| DependencyCacheVisualizer.loading_tree := false;
            DependencyCacheVisualizer.loading_stats := false;
            DependencyCacheVisualizer.loading_operation := false |};
       DependencyCacheVisualizer.error := None;
       DependencyCacheVisualizer.opPathInput := lit "users/1";
       DependencyCacheVisualizer.opDataInput := lit "";
       DependencyCacheVisualizer.lastOperationResult := None;
       DependencyCacheVisualizer.autoRefreshInterval := 0%Z;
       DependencyCacheVisualizer.refreshIntervalId := None;
       DependencyCacheVisualizer.toasts := [] |} in
  let server : api.Net -> api.Request -> Settled api.Response :=
    fun _ _ =>
      Fulfilled {| api.ok := false; api.status := 500%Z;
                   api.json :=
                     Normal (JObj [(lit "detail",
                                    JStr (lit "Cache error"))]) |} in
  DependencyCacheVisualizer.error
    (fst (DependencyCacheVisualizer.handleInvalidate
            (api.settle_by (fun _ => lit "") (lit "") server)
            (fun _ => None) (fun _ => false) (u, [])))
  = Some (lit "Operation failed: Cache error").
Proof.
  cbv zeta.
  match goal with
  | |- context [DependencyCacheVisualizer.handleInvalidate
                  (api.settle_by ?ts ?te ?server) ?parse ?race (?u, ?sent)] =>
      destruct (server_error_detail_is_shown ts te server parse race u sent
                  (lit "users") [lit "1"]
                  {| api.ok := false; api.status := 500%Z;
                     api.json :=
                       Normal (JObj [(lit "detail",
                                      JStr (lit "Cache error"))]) |}
                  [(lit "detail", JStr (lit "Cache error"))]
                  (lit "Cache error") eq_refl eq_refl eq_refl eq_refl
                  eq_refl ltac:(discriminate)) as [Herror _]
  end.
  rewrite Herror. reflexivity.
Defined.

Section OperationInvariants.

Import DependencyCacheVisualizer.

Variable settle : api.Net -> api.Request -> Settled JsValue.
Variable JSON_parse : ustring -> option JsValue.
Variable statsFirst : api.Net -> bool.

(** A [try] block that throws has not touched the state. *)
Lemma executeOperation_try_thrown (operationFn : ApiFunction)
  (successMessage opType : ustring) (requiresPath clearDataInput : bool)
  (currentPathStr : ustring) (w w1 : Ui * api.Net) (m : ustring) :
  executeOperation_try settle JSON_parse statsFirst operationFn successMessage opType
    requiresPath clearDataInput currentPathStr w = (Thrown m, w1) ->
  fst w1 = fst w.
Proof.
  unfold executeOperation_try. destruct w as [u sent].
  destruct (requiresPath && _); [now intros [= _ <-]|].
  destruct (if is_addData operationFn then _ else _)
    as [[promise|m'] sent1]; [|now intros [= _ <-]].
  destruct (await promise) as [answer|m']; [|now intros [= _ <-]].
  discriminate.
Qed.

(** A [try] block that completes has shown the success toast and kept
    the path input. *)
Lemma executeOperation_try_success_frame (operationFn : ApiFunction)
  (successMessage opType : ustring) (requiresPath clearDataInput : bool)
  (currentPathStr : ustring) (w w1 : Ui * api.Net) (response : JsValue) :
  executeOperation_try settle JSON_parse statsFirst operationFn successMessage opType
    requiresPath clearDataInput currentPathStr w = (Normal response, w1) ->
  opPathInput (fst w1) = opPathInput (fst w)
  /\ exists more,
       toasts (fst w1)
       = toasts (fst w) ++ toast_success successMessage :: more.
Proof.
  unfold executeOperation_try. destruct w as [u sent].
  destruct (requiresPath && _); [discriminate|].
  destruct (if is_addData operationFn then _ else _)
    as [[promise|m] sent1]; [|discriminate].
  destruct (await promise) as [answer|m]; [|discriminate].
  match goal with
  | |- context [fetchData settle statsFirst false (?u2, ?s1)] =>
      pose proof (fetchData_frame settle statsFirst false u2 s1) as Hframe;
      destruct (fetchData settle statsFirst false (u2, s1)) as [u3 sent3]
  end.
  cbv zeta in Hframe. cbn [fst] in Hframe.
  destruct Hframe as [Hp [_ [_ [[more Ht] _]]]].
  intros [= <- <-]. cbn [fst]. rewrite Hp, Ht.
  destruct clearDataInput; cbn; (split; [reflexivity|]);
    exists more; now rewrite <- app_assoc.
Qed.

End OperationInvariants.

(** X21. Every operation, whatever the function, the inputs and the
    answers, ends with the operation flag off, the path input as typed,
    at least one new toast, and a last operation recorded under its
    type and the path typed: a success carrying the answer returned,
    or a failure carrying the message, in which case [null] is
    returned, the error shown is 'Operation failed: ' and the message,
    and the tree and statistics shown are unchanged. *)
Theorem operation_always_reports
  (settle : api.Net -> api.Request -> Settled JsValue)
  (JSON_parse : ustring -> option JsValue)
  (statsFirst : api.Net -> bool)
  (operationFn : DependencyCacheVisualizer.ApiFunction)
  (successMessage opType : ustring) (requiresPath clearDataInput : bool)
  (u : DependencyCacheVisualizer.Ui) (sent : api.Net) :
  let result :=
    DependencyCacheVisualizer.executeOperation settle JSON_parse statsFirst operationFn
      successMessage opType requiresPath clearDataInput (u, sent) in
  let u' := fst (snd result) in
  DependencyCacheVisualizer.loading_operation
    (DependencyCacheVisualizer.loading u') = false
  /\ DependencyCacheVisualizer.opPathInput u'
     = DependencyCacheVisualizer.opPathInput u
  /\ (exists t more,
        DependencyCacheVisualizer.toasts u'
        = DependencyCacheVisualizer.toasts u ++ t :: more)
  /\ (DependencyCacheVisualizer.lastOperationResult u'
      = Some {| DependencyCacheVisualizer.r_type := opType;
                DependencyCacheVisualizer.r_success := true;
                DependencyCacheVisualizer.r_path :=
                  DependencyCacheVisualizer.opPathInput u;
                DependencyCacheVisualizer.r_response := Some (fst result);
                DependencyCacheVisualizer.r_error := None |}
      \/ exists m,
           DependencyCacheVisualizer.lastOperationResult u'
           = Some {| DependencyCacheVisualizer.r_type := opType;
                     DependencyCacheVisualizer.r_success := false;
                     DependencyCacheVisualizer.r_path :=
                       DependencyCacheVisualizer.opPathInput u;
                     DependencyCacheVisualizer.r_response := None;
                     DependencyCacheVisualizer.r_error := Some m |}
           /\ fst result = JNull
           /\ DependencyCacheVisualizer.error u'
              = Some (lit "Operation failed: " ++ m)
           /\ DependencyCacheVisualizer.tree u'
              = DependencyCacheVisualizer.tree u
           /\ DependencyCacheVisualizer.stats u'
              = DependencyCacheVisualizer.stats u).
Proof.
  cbv zeta. unfold DependencyCacheVisualizer.executeOperation.
  cbn [DependencyCacheVisualizer.setLoading
       DependencyCacheVisualizer.setError
       DependencyCacheVisualizer.setLastOperationResult
       DependencyCacheVisualizer.opPathInput].
  destruct (DependencyCacheVisualizer.executeOperation_try _ _ _ _ _ _ _ _ _ _)
    as [[response|m] [u1 sent1]] eqn:Htry.
  - pose proof (executeOperation_try_success _ _ _ _ _ _ _ _ _ _ _ _ Htry)
      as Hlast.
    destruct (executeOperation_try_success_frame _ _ _ _ _ _ _ _ _ _ _ _ Htry)
      as [Hpath [more Htoasts]].
    cbn [fst] in Hlast, Hpath, Htoasts.
    cbn [DependencyCacheVisualizer.opPathInput
         DependencyCacheVisualizer.toasts] in Hpath, Htoasts.
    cbn. split; [reflexivity|]. split; [exact Hpath|].
    split; [eexists _, more; exact Htoasts|]. left. exact Hlast.
  - apply executeOperation_try_thrown in Htry. cbn [fst] in Htry. subst u1.
    cbn. split; [reflexivity|]. split; [reflexivity|].
    split; [eexists _, []; reflexivity|]. right. exists m.
    repeat split.
Qed.
